(** * site_word_frequency: the crawl controller, aggregator and ranking

    A shallow embedding of [finder.go] (the [WordFinder]: [run],
    [addLinkData], [getResults], [getErrors]) and of the start-up and
    reporting code of the main file ([main], [showStatus]).

    Go values are modelled as follows.
    - [int] and [int64] are 64-bit two's-complement integers: a [Z] kept
      in range by [wrap64] after every addition.
    - [map[string]int] is a [gmap string Z]; reading an absent key gives
      the zero value ([index]).
    - a slice that the code compares with [nil] is a [slice]: either
      [nil_slice] or [mk_slice l].
    - a buffered channel is a FIFO buffer with a capacity ([chan]); the
      model covers channels of capacity at least one (an unbuffered
      channel hands a value over to a waiting receiver directly).
    - goroutines are interleaved by an explicit scheduler: a run of the
      program is a list of [action]s, executed by [exec].  A run ends
      when the loop of [run] is left; closing the channels and waiting
      for the workers, which follow, are not modelled. *)

From Stdlib Require Import ZArith Lia Ascii String Sorting.Sorted Sorting.Permutation.
From stdpp Require Import base option list gmap strings sorting.

Local Open Scope Z_scope.

(** ** Go machine integers *)

Definition max_int : Z := 2 ^ 63 - 1.
Definition min_int : Z := - 2 ^ 63.

(** Two's-complement wrap-around of a 64-bit signed integer. *)
Definition wrap64 (z : Z) : Z := (z + 2 ^ 63) mod 2 ^ 64 - 2 ^ 63.

Definition in_int (z : Z) : Prop := min_int <= z <= max_int.

(** ** Slices, with the nil / non-nil distinction of Go *)

Inductive slice (A : Type) : Type :=
| nil_slice : slice A
| mk_slice (l : list A) : slice A.
Arguments nil_slice {A}.
Arguments mk_slice {A} l.

(** The elements of a slice; a nil slice has none. *)
Definition elems {A} (s : slice A) : list A :=
  match s with
  | nil_slice => []
  | mk_slice l => l
  end.

(** [append(s, x)]: the result is never nil. *)
Definition append {A} (s : slice A) (x : A) : slice A :=
  mk_slice (elems s ++ [x]).

(** [s == nil] *)
Definition is_nil {A} (s : slice A) : bool :=
  match s with
  | nil_slice => true
  | mk_slice _ => false
  end.

(** ** Buffered channels *)

Record chan (A : Type) : Type := mk_chan { buf : list A; cap : nat }.
Arguments mk_chan {A} buf cap.
Arguments buf {A} c.
Arguments cap {A} c.

(** [make(chan A, n)] *)
Definition make_chan {A} (n : nat) : chan A := mk_chan [] n.

(** A send proceeds when the buffer has room (for a capacity of at
    least one this is also the case whenever a receiver is waiting,
    because the buffer is then empty). *)
Definition chan_send {A} (x : A) (c : chan A) : option (chan A) :=
  if decide (length (buf c) < cap c)%nat
  then Some (mk_chan (buf c ++ [x]) (cap c))
  else None.

(** A receive proceeds when the buffer is not empty. *)
Definition chan_recv {A} (c : chan A) : option (A * chan A) :=
  match buf c with
  | [] => None
  | x :: rest => Some (x, mk_chan rest (cap c))
  end.

(** ** Data model *)

(** The fields of [SearchRecord] that [finder.go] and [showStatus] use:
    the page's URL and its error ([nil] is [None]; an error is modelled
    by its message, the result of [Error()]). *)
Record SearchRecord : Type := mk_SearchRecord {
  url : string;
  err : option string
}.

Record RunStats : Type := mk_RunStats {
  chanFree : Z;
  chanBlocked : Z
}.

Record kvPair : Type := mk_kvPair {
  key : string;
  value : Z
}.

(** The [WordFinder].  The field [x] of the source is [wf_x] here; the
    formatter is presentation only and is left out.  [wf_mu] is [true]
    while the mutex is held. *)
Record WordFinder : Type := mk_WordFinder {
  wf_words : gmap string Z;
  wf_errRecs : slice SearchRecord;
  wf_target : string;
  wf_startURL : string;
  wf_filter : chan (list string);
  wf_interrupt : bool;
  wf_mu : bool;
  wf_stats : RunStats
}.

(** The heap that [addLinkData] runs on: the finder, and the goroutines
    started by [go func() { wf.filter <- links }()] that have not yet
    completed their send (each is identified by the batch it holds). *)
Record World : Type := mk_World {
  wf : WordFinder;
  spawned : list (list string)
}.

Definition set_words (f : gmap string Z -> gmap string Z) (w : WordFinder) : WordFinder :=
  mk_WordFinder (f (wf_words w)) (wf_errRecs w) (wf_target w) (wf_startURL w)
                (wf_filter w) (wf_interrupt w) (wf_mu w) (wf_stats w).

Definition set_errRecs (f : slice SearchRecord -> slice SearchRecord) (w : WordFinder) : WordFinder :=
  mk_WordFinder (wf_words w) (f (wf_errRecs w)) (wf_target w) (wf_startURL w)
                (wf_filter w) (wf_interrupt w) (wf_mu w) (wf_stats w).

Definition set_filter (c : chan (list string)) (w : WordFinder) : WordFinder :=
  mk_WordFinder (wf_words w) (wf_errRecs w) (wf_target w) (wf_startURL w)
                c (wf_interrupt w) (wf_mu w) (wf_stats w).

Definition set_interrupt (b : bool) (w : WordFinder) : WordFinder :=
  mk_WordFinder (wf_words w) (wf_errRecs w) (wf_target w) (wf_startURL w)
                (wf_filter w) b (wf_mu w) (wf_stats w).

Definition set_mu (b : bool) (w : WordFinder) : WordFinder :=
  mk_WordFinder (wf_words w) (wf_errRecs w) (wf_target w) (wf_startURL w)
                (wf_filter w) (wf_interrupt w) b (wf_stats w).

Definition set_stats (f : RunStats -> RunStats) (w : WordFinder) : WordFinder :=
  mk_WordFinder (wf_words w) (wf_errRecs w) (wf_target w) (wf_startURL w)
                (wf_filter w) (wf_interrupt w) (wf_mu w) (f (wf_stats w)).

Definition on_wf (f : WordFinder -> WordFinder) (w : World) : World :=
  mk_World (f (wf w)) (spawned w).

(** ** [newWordFinder] *)

(** [strings.HasPrefix(target, "www.")] and [target[4:]]. *)
Definition strip_www (host : string) : string :=
  if String.prefix "www." host then String.substring 4 (String.length host - 4) host
  else host.

(** [hostname] is [startURL.Hostname()]; [capacity] is
    multiplier times concurrency. *)
Definition newWordFinder (startURL hostname : string) (capacity : nat) : WordFinder :=
  {| wf_words := ∅;
     wf_errRecs := nil_slice;
     wf_target := strip_www hostname;
     wf_startURL := startURL;
     wf_filter := make_chan capacity;
     wf_interrupt := false;
     wf_mu := false;
     wf_stats := mk_RunStats 0 0 |}.

(** ** [addLinkData] *)

(** [m[k]] on a Go map: the zero value when the key is absent. *)
Definition index (m : gmap string Z) (k : string) : Z := default 0 (m !! k).

(** [wf.words[k] += v] *)
Definition add_word (acc : gmap string Z) (kv : string * Z) : gmap string Z :=
  <[kv.1 := wrap64 (index acc kv.1 + kv.2)]> acc.

(** [for k, v := range wds { wf.words[k] += v }], for one order in which
    the range statement can enumerate the entries of [wds]. *)
Definition merge_entries (words : gmap string Z) (entries : list (string * Z)) : gmap string Z :=
  foldl add_word words entries.

Definition merge_words (words wds : gmap string Z) : gmap string Z :=
  merge_entries words (map_to_list wds).

(** [wf.mu.Lock()]: proceeds only when the mutex is free. *)
Definition lock (w : World) : option World :=
  if wf_mu (wf w) then None else Some (on_wf (set_mu true) w).

(** [wf.mu.Unlock()] *)
Definition unlock (w : World) : World := on_wf (set_mu false) w.

Definition incr_chanFree (w : World) : World :=
  on_wf (set_stats (fun s => mk_RunStats (wrap64 (chanFree s + 1)) (chanBlocked s))) w.

Definition incr_chanBlocked (w : World) : World :=
  on_wf (set_stats (fun s => mk_RunStats (chanFree s) (wrap64 (chanBlocked s + 1)))) w.

(** [case wf.filter <- links:] of a select with a default: [None] when
    the send cannot proceed at once. *)
Definition try_send_filter (links : list string) (w : World) : option World :=
  c ← chan_send links (wf_filter (wf w)); Some (on_wf (set_filter c) w).

(** [go func() { wf.filter <- links }()] *)
Definition go_send_filter (links : list string) (w : World) : World :=
  mk_World (wf w) (spawned w ++ [links]).

(** The body of [addLinkData]; [None] when [Lock] has to wait. *)
Definition addLinkData (sr : SearchRecord) (wds : gmap string Z)
    (links : list string) (w : World) : option World :=
  w ← lock w;
  let w := if err sr is Some _
           then on_wf (set_errRecs (fun e => append e sr)) w
           else w in
  let w := on_wf (set_words (fun m => merge_words m wds)) w in
  match try_send_filter links w with
  | Some w => Some (unlock (incr_chanFree w))
  | None => Some (go_send_filter links (unlock (incr_chanBlocked w)))
  end.

(** The send of a goroutine started by [addLinkData]: the [i]-th pending
    one puts its batch into the filter channel, when there is room. *)
Definition relief_send (i : nat) (w : World) : option World :=
  links ← spawned w !! i;
  c ← chan_send links (wf_filter (wf w));
  Some (mk_World (set_filter c (wf w)) (delete i (spawned w))).

(** ** [getErrors] *)

Definition getErrors (w : WordFinder) : slice SearchRecord := wf_errRecs w.

(** ** [getResults] *)

(** [kvSorter.Less], on the elements at the two indices. *)
Definition Less (a b : kvPair) : bool := bool_decide (value b < value a).

(** What [sort.Sort] guarantees for a [Less]: the result holds the same
    elements, and no element is [Less] than one placed before it. *)
Definition sorted_by_Less (l : list kvPair) : Prop :=
  StronglySorted (fun a b => Less b a = false) l.

Definition to_kvPair (kv : string * Z) : kvPair := mk_kvPair kv.1 kv.2.

Section GetResults.
(** [range_order m] is the order in which [for k, v := range m]
    enumerates the map, [sort_Sort] the library's [sort.Sort], and
    [totWords] the [tot_words] flag (declared with [flag.Uint]). *)
Variable range_order : gmap string Z -> list (string * Z).
Variable sort_Sort : list kvPair -> list kvPair.
Variable totWords : nat.

Definition getResults (w : WordFinder) : list kvPair :=
  let sorter := sort_Sort (to_kvPair <$> range_order (wf_words w)) in
  let cnt := totWords in
  let cnt := if decide (length sorter < cnt)%nat then length sorter else cnt in
  take cnt sorter.
End GetResults.

(** An instance of the library sort, for running [getResults]:
    insertion sort with [Less]. *)
Fixpoint insert_by_Less (x : kvPair) (l : list kvPair) : list kvPair :=
  match l with
  | [] => [x]
  | y :: l' => if Less y x then y :: insert_by_Less x l' else x :: l
  end.

Definition insertion_sort (l : list kvPair) : list kvPair :=
  foldr insert_by_Less [] l.

(** ** Sequences of submissions *)

(** The arguments of one call of [addLinkData]. *)
Record submission : Type := mk_submission {
  sub_sr : SearchRecord;
  sub_wds : gmap string Z;
  sub_links : list string
}.

(** The calls of [addLinkData] in the order in which the mutex admits
    them. *)
Fixpoint submit_all (calls : list submission) (w : World) : option World :=
  match calls with
  | [] => Some w
  | c :: rest =>
      w' ← addLinkData (sub_sr c) (sub_wds c) (sub_links c) w;
      submit_all rest w'
  end.

Definition has_err (r : SearchRecord) : bool :=
  match err r with
  | Some _ => true
  | None => false
  end.


(** ** The crawl: [run] and the worker goroutines *)

(** The outcome of processing one page, as a worker hands it to
    [addLinkData]. *)
Record PageResult : Type := mk_PageResult {
  pr_err : option string;
  pr_words : gmap string Z;
  pr_links : list string
}.

(** Where the goroutine that executes [run] stands. *)
Inductive pc : Type :=
| CStart                                  (* before [tasks <- SearchRecord{...}], line 88 *)
| CRecv                                   (* at [l := <-wf.filter], [cnt > 0] has held *)
| CLinks (l : list string)                (* in [for _, link := range l], [l] still to do *)
| CSelect (link : string) (l : list string) (* at the [select] for [link] *)
| CDone.                                  (* the loop is left *)

(** What has happened so far, oldest first (a ghost record: no step
    reads it). *)
Inductive event : Type :=
| EvCancel                                (* [cancel()] was called: [ctx.Done()] is closed *)
| EvVisit (u : string)                    (* [visited[link] = true] *)
| EvEnqueue (u : string)                  (* a [SearchRecord] was sent into [tasks] *)
| EvGiveUp (u : string)                   (* the select took [<-ctx.Done()] *)
| EvDequeue (u : string)                  (* a worker received the record from [tasks] *)
| EvSubmit (c : submission)               (* [addLinkData] ran with these arguments *)
| EvDeliver (b : list string)             (* a spawned goroutine sent [b] into [wf.filter] *)
| EvConsume (b : list string)             (* [run] received [b] from [wf.filter] *)
| EvIterated.                             (* [run] executed the post statement [cnt--] *)

Record System : Type := mk_System {
  world : World;
  tasks : chan SearchRecord;
  busy : list SearchRecord;   (* records inside [processLink], one per occupied worker *)
  cancelled : bool;           (* [ctx.Done()] is closed *)
  ctl : pc;
  cnt : Z;
  visited : gmap string bool;
  trace : list event
}.

(** One scheduling decision. *)
Inductive action : Type :=
| ACancel                    (* the signal handler calls [cancel()] *)
| AWorkerRecv                (* a free worker receives from [tasks] *)
| AWorkerSubmit (i : nat)    (* the worker on [busy !! i] finishes [processLink] *)
| ARelief (i : nat)          (* the [i]-th spawned goroutine completes its send *)
| ACtl                       (* [run] executes its next statement *)
| ACtlDone                   (* [run], at the select, takes [case <-ctx.Done()] *)
| ACtlSend.                  (* [run], at the select, takes [case tasks <- ...] *)

Definition log (e : event) (s : System) : System :=
  mk_System (world s) (tasks s) (busy s) (cancelled s) (ctl s) (cnt s)
            (visited s) (trace s ++ [e]).

(** The post statement [cnt--] and the condition [cnt > 0] of the loop. *)
Definition loop_next (s : System) : System :=
  let c := wrap64 (cnt s - 1) in
  log EvIterated
    (mk_System (world s) (tasks s) (busy s) (cancelled s)
               (if decide (c > 0) then CRecv else CDone) c (visited s) (trace s)).

(** The statements of [run], from line 88 to the end of the loop. *)
Definition ctl_step (a : action) (s : System) : option System :=
  match ctl s, a with
  | CStart, ACtl =>
      (* tasks <- SearchRecord{url: wf.startURL.String()}; cnt := 1 *)
      let seed := wf_startURL (wf (world s)) in
      t ← chan_send (mk_SearchRecord seed None) (tasks s);
      Some (log (EvEnqueue seed)
              (mk_System (world s) t (busy s) (cancelled s) CRecv 1
                         (visited s) (trace s)))
  | CRecv, ACtl =>
      (* l := <-wf.filter; if wf.interrupt { continue } *)
      '(l, c) ← chan_recv (wf_filter (wf (world s)));
      let s := log (EvConsume l)
                 (mk_System (on_wf (set_filter c) (world s)) (tasks s) (busy s)
                            (cancelled s) (ctl s) (cnt s) (visited s) (trace s)) in
      if wf_interrupt (wf (world s)) then Some (loop_next s)
      else Some (mk_System (world s) (tasks s) (busy s) (cancelled s) (CLinks l)
                           (cnt s) (visited s) (trace s))
  | CLinks [], ACtl => Some (loop_next s)
  | CLinks (link :: l), ACtl =>
      (* if visited[link] == false { visited[link] = true; cnt++; select ... } *)
      if decide (default false (visited s !! link) = false)
      then Some (log (EvVisit link)
                   (mk_System (world s) (tasks s) (busy s) (cancelled s)
                              (CSelect link l) (wrap64 (cnt s + 1))
                              (<[link := true]> (visited s)) (trace s)))
      else Some (mk_System (world s) (tasks s) (busy s) (cancelled s) (CLinks l)
                           (cnt s) (visited s) (trace s))
  | CSelect link l, ACtlDone =>
      (* case <-ctx.Done(): cnt--; wf.interrupt = true *)
      if cancelled s
      then Some (log (EvGiveUp link)
                   (mk_System (on_wf (set_interrupt true) (world s)) (tasks s) (busy s)
                              (cancelled s) (CLinks l) (wrap64 (cnt s - 1))
                              (visited s) (trace s)))
      else None
  | CSelect link l, ACtlSend =>
      (* case tasks <- SearchRecord{url: link}: *)
      t ← chan_send (mk_SearchRecord link None) (tasks s);
      Some (log (EvEnqueue link)
              (mk_System (world s) t (busy s) (cancelled s) (CLinks l) (cnt s)
                         (visited s) (trace s)))
  | _, _ => None
  end.

Section Crawl.
(** [fetch c u] is what the page fetcher yields for the URL [u]; [c]
    tells whether the context was already cancelled.  [concurrency] is
    the number of worker goroutines. *)
Variable fetch : bool -> string -> PageResult.
Variable concurrency : nat.

(** Modelled from the spec: [SearchRecord.processLink], which is not
    in the source at hand.  Section 4.1: the worker invokes the fetcher
    with the task's URL and the cancellable context, packages the
    outcome into a page result and submits it to the aggregator, one
    submission per task. *)
Definition page_submission (cancelled : bool) (rec : SearchRecord) : submission :=
  let p := fetch cancelled (url rec) in
  mk_submission (mk_SearchRecord (url rec) (pr_err p)) (pr_words p) (pr_links p).

Definition processLink (rec : SearchRecord) (cancelled : bool) (w : World) : option World :=
  let c := page_submission cancelled rec in
  addLinkData (sub_sr c) (sub_wds c) (sub_links c) w.

Definition step (a : action) (s : System) : option System :=
  match a with
  | ACancel =>
      if cancelled s then None
      else Some (log EvCancel
                   (mk_System (world s) (tasks s) (busy s) true (ctl s) (cnt s)
                              (visited s) (trace s)))
  | AWorkerRecv =>
      (* for rec := range tasks *)
      if decide (length (busy s) < concurrency)%nat then
        '(rec, t) ← chan_recv (tasks s);
        Some (log (EvDequeue (url rec))
                (mk_System (world s) t (busy s ++ [rec]) (cancelled s) (ctl s)
                           (cnt s) (visited s) (trace s)))
      else None
  | AWorkerSubmit i =>
      (* rec.processLink(ctx, wf) *)
      rec ← busy s !! i;
      w ← processLink rec (cancelled s) (world s);
      Some (log (EvSubmit (page_submission (cancelled s) rec))
              (mk_System w (tasks s) (delete i (busy s)) (cancelled s) (ctl s)
                         (cnt s) (visited s) (trace s)))
  | ARelief i =>
      b ← spawned (world s) !! i;
      w ← relief_send i (world s);
      Some (log (EvDeliver b)
              (mk_System w (tasks s) (busy s) (cancelled s) (ctl s) (cnt s)
                         (visited s) (trace s)))
  | ACtl | ACtlDone | ACtlSend => ctl_step a s
  end.

(** A run of the program under a given schedule. *)
Fixpoint exec (acts : list action) (s : System) : option System :=
  match acts with
  | [] => Some s
  | a :: rest => s' ← step a s; exec rest s'
  end.
End Crawl.

(** The state in which [run] is about to send the start URL: the finder
    is fresh, the task channel has just been made, no worker holds a
    record. *)
Definition init (seed hostname : string) (capacity : nat) : System :=
  {| world := mk_World (newWordFinder seed hostname capacity) [];
     tasks := make_chan capacity;
     busy := [];
     cancelled := false;
     ctl := CStart;
     cnt := 0;
     visited := ∅;
     trace := [] |}.

(** ** Start-up: [main] up to the call of [finder.run] *)




Section Main.
(** [url_Parse] is the library's [url.Parse] ([None] for an error) and
    [os_Create] tells whether [os.Create] succeeds on a path. *)
Variable url_Parse : string -> option string.
Variable os_Create : string -> bool.

End Main.



(** ** Reporting: the error part of [showStatus] *)

Definition outputLength : nat := 75.

Definition newline : string := String "010"%char EmptyString.

(** [fmt.Sprintf("%-*.*s", n, n, s)]: cut to [n] characters, then padded
    on the right with spaces to [n]. *)
Definition pad_right (n : nat) (s : string) : string :=
  let s := String.substring 0 n s in
  s +:+ String.string_of_list_ascii (replicate (n - String.length s) " "%char).

Definition no_errors_notice : string :=
  pad_right outputLength "No errors occurred in run." +:+ newline.

(** ['%s': error occurred: %s\n] with [r.url] and [r.err.Error()];
    [None] where [r.err] is nil and the call of [Error] panics. *)
Definition error_line (r : SearchRecord) : option string :=
  e ← err r;
  Some ("'" +:+ url r +:+ "': error occurred: " +:+ e +:+ newline).

(** Lines 135 to 143 of the main file: what [showStatus] prints about
    errors. *)
Definition showStatus_errors (finder : WordFinder) : option (list string) :=
  let elist := getErrors finder in
  if is_nil elist then Some [no_errors_notice]
  else mapM error_line (elems elist).

(** ** What a run has done, read from its trace *)

(** The URLs sent into [tasks], the start URL first. *)
Definition enqueued (tr : list event) : list string :=
  omap (fun e => if e is EvEnqueue u then Some u else None) tr.

(** The URLs put into [visited]. *)
Definition visits (tr : list event) : list string :=
  omap (fun e => if e is EvVisit u then Some u else None) tr.

(** The link batches that [run] has received from [wf.filter]. *)
Definition consumed (tr : list event) : list (list string) :=
  omap (fun e => if e is EvConsume b then Some b else None) tr.

(** The calls of [addLinkData], in their order. *)
Definition submitted (tr : list event) : list submission :=
  omap (fun e => if e is EvSubmit c then Some c else None) tr.

(** The URL of the page of a submission. *)
Definition sub_url (c : submission) : string := url (sub_sr c).

(** The error log after a sequence of submissions to a new finder. *)
Definition errors_of (calls : list submission) : slice SearchRecord :=
  foldl (fun e c => if has_err (sub_sr c) then append e (sub_sr c) else e) nil_slice calls.

(** The URLs whose select took the cancellation. *)
Definition given_up (tr : list event) : list string :=
  omap (fun e => if e is EvGiveUp u then Some u else None) tr.

(** One entry per completed iteration of the loop of [run]. *)
Definition iterated (tr : list event) : list unit :=
  omap (fun e => if e is EvIterated then Some tt else None) tr.

(** The link batches that still have to reach [run]: one per record in
    [tasks], per record held by a worker, per goroutine waiting to send,
    and per batch in [wf.filter]. *)
Definition pending (s : System) : nat :=
  length (buf (tasks s)) + length (busy s) + length (spawned (world s))
  + length (buf (wf_filter (wf (world s)))).

(** By how much [cnt] is ahead of [pending] inside an iteration: one for
    the batch that is being processed and whose [cnt--] is still to come,
    one more between [cnt++] and the outcome of the select. *)
Definition ctl_offset (c : pc) : Z :=
  match c with
  | CLinks _ => 1
  | CSelect _ _ => 2
  | _ => 0
  end.

Definition in_iteration (c : pc) : nat :=
  match c with
  | CLinks _ | CSelect _ _ => 1
  | _ => 0
  end.

Definition started (c : pc) : nat :=
  match c with
  | CStart => 0
  | _ => 1
  end.

Definition at_select (c : pc) : nat :=
  match c with
  | CSelect _ _ => 1
  | _ => 0
  end.

(** The link for which [run] stands at the select. *)
Definition select_link (c : pc) : list string :=
  match c with
  | CSelect link _ => [link]
  | _ => []
  end.

(** The links that [run] still holds. *)
Definition ctl_links (c : pc) : list string :=
  match c with
  | CLinks l => l
  | CSelect link l => link :: l
  | _ => []
  end.

(** ** Finite link graphs *)

Section Graph.
Variable fetch : bool -> string -> PageResult.
Variable U : list string.

(** Every link of a page of [U] is in [U] again. *)
Definition graph_closed : bool :=
  forallb (fun u => forallb (fun x => bool_decide (x ∈ U))
                      (pr_links (fetch true u) ++ pr_links (fetch false u))) U.

(** The largest number of links on a page of [U]. *)
Definition max_links : nat :=
  foldr (fun u acc => Nat.max (length (pr_links (fetch true u)))
                        (Nat.max (length (pr_links (fetch false u))) acc)) 0%nat U.

Definition batch_weight (b : list string) : nat := (2 * length b + 2)%nat.

Definition ctl_weight (c : pc) : nat :=
  match c with
  | CStart => 2 * max_links + 6
  | CRecv => 0
  | CLinks l => 2 * length l + 1
  | CSelect _ l => 2 * length l + 2 + (2 * max_links + 5)
  | CDone => 0
  end%nat.

(** A bound on the number of steps that a run can still take. *)
Definition measure (s : System) : nat :=
  ((2 * max_links + 6) * size ((list_to_set U : gset string) ∖ dom (visited s))
   + sum_list_with (fun _ => 2 * max_links + 5) (buf (tasks s))
   + sum_list_with (fun _ => 2 * max_links + 4) (busy s)
   + sum_list_with (fun b => batch_weight b + 1) (spawned (world s))
   + sum_list_with batch_weight (buf (wf_filter (wf (world s))))
   + ctl_weight (ctl s)
   + (if cancelled s then 0 else 1))%nat.

Variable seed : string.
Variable capacity : nat.

(** What holds in every state of a run on a link graph within [U]. *)
Record inv (s : System) : Prop := mk_inv {
  inv_mu : wf_mu (wf (world s)) = false;
  inv_seed : wf_startURL (wf (world s)) = seed;
  inv_cap_tasks : cap (tasks s) = capacity;
  inv_cap_filter : cap (wf_filter (wf (world s))) = capacity;
  inv_cnt : cnt s = Z.of_nat (pending s) + ctl_offset (ctl s);
  inv_recv : ctl s = CRecv -> (0 < pending s)%nat;
  inv_idle : ctl s = CStart ∨ ctl s = CDone -> pending s = 0%nat;
  inv_tasks :
    enqueued (trace s) ≡ₚ
      (url <$> buf (tasks s)) ++ (url <$> busy s) ++ (sub_url <$> submitted (trace s));
  inv_batches :
    sub_links <$> submitted (trace s) ≡ₚ
      spawned (world s) ++ buf (wf_filter (wf (world s))) ++ consumed (trace s);
  inv_words :
    wf_words (wf (world s)) = foldl merge_words ∅ (sub_wds <$> submitted (trace s));
  inv_errRecs : wf_errRecs (wf (world s)) = errors_of (submitted (trace s));
  inv_interrupt : wf_interrupt (wf (world s)) = true -> cancelled s = true;
  inv_visited : ∀ u, visited s !! u = Some true <-> u ∈ visits (trace s);
  inv_visited_true : ∀ u b, visited s !! u = Some b -> b = true;
  inv_visits_NoDup : NoDup (visits (trace s));
  inv_sched :
    (length (enqueued (trace s)) + length (given_up (trace s)) + at_select (ctl s) =
     started (ctl s) + length (visits (trace s)))%nat;
  inv_dedup :
    enqueued (trace s) ++ given_up (trace s) ++ select_link (ctl s) ≡ₚ
      replicate (started (ctl s)) seed ++ visits (trace s);
  inv_select : Forall (fun x => x ∈ visits (trace s)) (select_link (ctl s));
  inv_iter :
    length (consumed (trace s)) = (length (iterated (trace s)) + in_iteration (ctl s))%nat;
  inv_univ_tasks : Forall (fun r => url r ∈ U) (buf (tasks s));
  inv_univ_busy : Forall (fun r => url r ∈ U) (busy s);
  inv_univ_spawned : Forall (Forall (fun x => x ∈ U)) (spawned (world s));
  inv_univ_filter : Forall (Forall (fun x => x ∈ U)) (buf (wf_filter (wf (world s))));
  inv_univ_ctl : Forall (fun x => x ∈ U) (ctl_links (ctl s));
  inv_univ_visits : Forall (fun x => x ∈ U) (visits (trace s))
}.
End Graph.

(** ** Sample inputs *)

Definition sample_world (capacity : nat) : World :=
  mk_World (newWordFinder "http://site.test/" "www.site.test" capacity) [].

Definition sample_ok : SearchRecord := mk_SearchRecord "http://site.test/a" None.

Definition sample_failed : SearchRecord :=
  mk_SearchRecord "http://site.test/b" (Some "connection refused").

Definition sample_hist1 : gmap string Z := {[ "hello" := 3 ]}.



(** A site of two pages that link to each other and to themselves. *)
Definition sample_seed : string := "http://site.test/".

Definition sample_page : string := "http://site.test/a".

Definition sample_fetch (c : bool) (u : string) : PageResult :=
  if decide (u = sample_seed)
  then mk_PageResult None {[ "hello" := 3 ]} [sample_page; sample_seed]
  else if decide (u = sample_page)
  then mk_PageResult None {[ "world" := 1 ]} [sample_seed; sample_page]
  else mk_PageResult (Some "404 Not Found") ∅ [].

Definition sample_site : list string := [sample_seed; sample_page].

(** A schedule on which the start page is fetched and its two links are
    both sent into [tasks]: the page, and the start URL again. *)
Definition sample_schedule : list action :=
  [ACtl; AWorkerRecv; AWorkerSubmit 0; ACtl; ACtl; ACtlSend; ACtl; ACtlSend].

(** A schedule on which the signal arrives while the first batch waits
    in the filter channel; the select for the first link takes the
    cancellation, and [run] then stands at the select for the second
    link. *)
Definition sample_cancelled_schedule : list action :=
  [ACtl; AWorkerRecv; AWorkerSubmit 0; ACancel; ACtl; ACtl; ACtlDone; ACtl].

(** A world whose filter channel (of capacity one) is full. *)
Definition sample_full_world : World :=
  on_wf (set_filter (mk_chan [["http://site.test/c"]] 1)) (sample_world 1).

(** The line that [showStatus] prints for a record with an error. *)
Definition error_report (r : SearchRecord) : string :=
  "'" +:+ url r +:+ "': error occurred: " +:+ default "" (err r) +:+ newline.




(** The histogram of the ranking example of the specification. *)
Definition sample_finder : WordFinder :=
  set_words (fun _ => <["apple" := 5]> (<["berry" := 9]> (<["cherry" := 9]> {["date" := 1]})))
            (newWordFinder "http://site.test/" "site.test" 1).

(** * Further parts of the program *)

(** ** [getRunStats] *)

Definition getRunStats (w : WordFinder) : RunStats := wf_stats w.

(** The link batches that spawned goroutines have sent into
    [wf.filter]. *)
Definition delivered (tr : list event) : list (list string) :=
  omap (fun e => if e is EvDeliver b then Some b else None) tr.

(** The sum of the counts of a word over a sequence of page
    histograms. *)
Definition total_count (k : string) (pages : list (gmap string Z)) : Z :=
  foldr (fun h acc => index h k + acc) 0 pages.

(** ** [kvSorter]: the methods of [sort.Interface] *)

(** [kvs.Len()] *)
Definition Len (kvs : list kvPair) : nat := length kvs.

(** [kvs.Less(i, j)]; [None] where an index is out of range and the
    index expression panics. *)
Definition Less_at (kvs : list kvPair) (i j : nat) : option bool :=
  a ← kvs !! i; b ← kvs !! j; Some (Less a b).

(** [kvs.Swap(i, j)], that is [kvs[i], kvs[j] = kvs[j], kvs[i]]: both
    elements are read, then [kvs[i]] and [kvs[j]] are assigned in this
    order; [None] where an index is out of range. *)
Definition Swap (kvs : list kvPair) (i j : nat) : option (list kvPair) :=
  a ← kvs !! i; b ← kvs !! j; Some (<[j := a]> (<[i := b]> kvs)).

(** ** Relations on runs *)

(** What no step undoes. *)
Definition keeps (s s' : System) : Prop :=
  trace s `prefix_of` trace s' ∧
  (∀ u, visited s !! u = Some true -> visited s' !! u = Some true) ∧
  (cancelled s = true -> cancelled s' = true) ∧
  (wf_interrupt (wf (world s)) = true -> wf_interrupt (wf (world s')) = true) ∧
  dom (wf_words (wf (world s))) ⊆ dom (wf_words (wf (world s'))) ∧
  elems (wf_errRecs (wf (world s))) `prefix_of` elems (wf_errRecs (wf (world s'))) ∧
  cap (tasks s') = cap (tasks s) ∧
  cap (wf_filter (wf (world s'))) = cap (wf_filter (wf (world s))) ∧
  wf_startURL (wf (world s')) = wf_startURL (wf (world s)).

(** The bounds that the worker pool and the two channels set. *)
Definition within_bounds (concurrency : nat) (s : System) : Prop :=
  (length (busy s) <= concurrency)%nat ∧
  (length (buf (tasks s)) <= cap (tasks s))%nat ∧
  (length (buf (wf_filter (wf (world s)))) <= cap (wf_filter (wf (world s))))%nat.

(** What the two counters of [RunStats] count. *)
Definition stats_count (s : System) : Prop :=
  0 <= chanFree (getRunStats (wf (world s))) ∧
  chanBlocked (getRunStats (wf (world s))) =
    Z.of_nat (length (delivered (trace s)) + length (spawned (world s))) ∧
  chanFree (getRunStats (wf (world s))) + chanBlocked (getRunStats (wf (world s))) =
    Z.of_nat (length (submitted (trace s))).

(** The URLs that can be reached from [seed] by following links, where
    [links u] are the links of the page [u]. *)
Inductive link_reachable (links : string -> list string) (seed : string)
  : string -> Prop :=
| reach_seed : link_reachable links seed seed
| reach_link u x :
    link_reachable links seed u -> x ∈ links u -> link_reachable links seed x.

(** The links of a page, fetched under a live or a cancelled context. *)
Definition any_links (fetch : bool -> string -> PageResult) (u : string) : list string :=
  pr_links (fetch false u) ++ pr_links (fetch true u).

(** The links of a page fetched under a live context. *)
Definition live_links (fetch : bool -> string -> PageResult) (u : string) : list string :=
  pr_links (fetch false u).

(** As long as the interrupt flag is not set, no select has taken the
    cancellation, and every link of every batch that [run] has received
    is in [visited] or is still to be looked at. *)
Definition links_accounted (s : System) : Prop :=
  wf_interrupt (wf (world s)) = false ->
  given_up (trace s) = [] ∧
  Forall (Forall (fun x => visited s !! x = Some true ∨ x ∈ ctl_links (ctl s)))
         (consumed (trace s)).

(** The submission of a worker that fetches [u] under a live context. *)
Definition live_page (fetch : bool -> string -> PageResult) (u : string) : submission :=
  page_submission fetch false (mk_SearchRecord u None).

(** As long as the context is not cancelled, every submission is that
    of a page fetched under a live context. *)
Definition fetched_live (fetch : bool -> string -> PageResult) (s : System) : Prop :=
  cancelled s = false ->
  Forall (fun c => c = live_page fetch (sub_url c)) (submitted (trace s)).

(** Every link that [run] has put into [visited] or still holds came
    in a batch received from [wf.filter]. *)
Definition links_received (s : System) : Prop :=
  Forall (fun x => ∃ b, b ∈ consumed (trace s) ∧ x ∈ b)
         (visits (trace s) ++ ctl_links (ctl s)).

(** The URLs that a state holds and those it has sent or fetched. *)
Definition urls_of (s : System) : list string :=
  (url <$> buf (tasks s)) ++ (url <$> busy s) ++ concat (spawned (world s))
  ++ concat (buf (wf_filter (wf (world s)))) ++ ctl_links (ctl s)
  ++ enqueued (trace s) ++ (sub_url <$> submitted (trace s)).


(** ** The status line: [newFormatter] and [showStatusLine] *)

From Stdlib Require Import DecimalString.

Definition ESC : string := String "027"%char EmptyString.
Definition CR : string := String "013"%char EmptyString.

Definition bold : string := ESC +:+ "[1m".
Definition redBold : string := ESC +:+ "[31;1m".
Definition graphicsOff : string := ESC +:+ "[0m".

(** [os.ModeDevice] and [os.ModeCharDevice]: [1 << (32 - 1 - 5)] and
    [1 << (32 - 1 - 10)]. *)
Definition ModeDevice : Z := 2 ^ 26.
Definition ModeCharDevice : Z := 2 ^ 21.

(** *** The part of [fmt.Sprintf] that the program uses

    Literal text, [%%], [%d] without flags on an integer, and [%s] on a
    string with an optional [-] flag, width and precision.  The library
    counts width and precision in runes; the model counts bytes and
    covers a string formatted with a width or a precision only when it
    is ASCII, where both agree.  [None] stands for everything else:
    other flags and verbs, a missing, a superfluous or a wrongly typed
    operand, a width or precision above the library's limit. *)
Inductive arg : Type :=
| AStr (s : string)
| AInt (n : Z).

Definition is_ascii_text (s : string) : bool :=
  forallb (fun c => (nat_of_ascii c <? 128)%nat) (list_ascii_of_string s).

Definition spaces (n : nat) : string := string_of_list_ascii (replicate n " "%char).

(** [fmt.fmtS]: the operand cut to the precision, then padded to the
    width, on the right with the [-] flag and on the left without. *)
Definition fmtS (minus : bool) (wid prec : option N) (s : string) : option string :=
  match wid, prec with
  | None, None => Some s
  | _, _ =>
      if is_ascii_text s then
        let s := if prec is Some p then String.substring 0 (N.to_nat p) s else s in
        Some (match wid with
              | Some w =>
                  let padding := spaces (N.to_nat w - String.length s) in
                  if minus then s +:+ padding else padding +:+ s
              | None => s
              end)
      else None
  end.

Definition fmt_verb (c : ascii) (minus : bool) (wid prec : option N)
    (k : list arg -> option string) (a : list arg) : option string :=
  if (c =? "%")%char then String "%"%char <$> k a
  else
    match a with
    | [] => None
    | x :: a' =>
        out ← match x with
              | AStr s => if (c =? "s")%char then fmtS minus wid prec s else None
              | AInt n =>
                  if (c =? "d")%char
                  then (if wid is None
                        then (if prec is None
                              then Some (NilZero.string_of_int (Z.to_int n)) else None)
                        else None)
                  else None
              end;
        rest ← k a';
        Some (out +:+ rest)
    end.

Definition digit (c : ascii) : option N :=
  let n := N_of_ascii c in
  if ((48 <=? n) && (n <=? 57))%N then Some (n - 48)%N else None.

(** The library rejects a width or a precision above a million. *)
Definition tooLarge (n : N) : bool := (1000000 <? n)%N.

(** Where the scan of the format stands: in literal text, behind the
    [%] and its flags, in the digits of the width, or in those of the
    precision. *)
Inductive scan : Type :=
| InText
| InFlags (minus : bool)
| InWidth (minus : bool) (w : N)
| InPrec (minus : bool) (wid : option N) (p : N).

Fixpoint Sprintf_from (st : scan) (format : string) (a : list arg) : option string :=
  match format with
  | EmptyString =>
      match st, a with
      | InText, [] => Some EmptyString
      | _, _ => None
      end
  | String c rest =>
      match st with
      | InText =>
          if (c =? "%")%char then Sprintf_from (InFlags false) rest a
          else String c <$> Sprintf_from InText rest a
      | InFlags minus =>
          if (c =? "-")%char then Sprintf_from (InFlags true) rest a
          else if (c =? ".")%char then Sprintf_from (InPrec minus None 0) rest a
          else match digit c with
               | Some d => Sprintf_from (InWidth minus d) rest a
               | None => fmt_verb c minus None None (Sprintf_from InText rest) a
               end
      | InWidth minus w =>
          if (c =? ".")%char then Sprintf_from (InPrec minus (Some w) 0) rest a
          else match digit c with
               | Some d =>
                   if tooLarge (10 * w + d) then None
                   else Sprintf_from (InWidth minus (10 * w + d)) rest a
               | None => fmt_verb c minus (Some w) None (Sprintf_from InText rest) a
               end
      | InPrec minus wid p =>
          match digit c with
          | Some d =>
              if tooLarge (10 * p + d) then None
              else Sprintf_from (InPrec minus wid (10 * p + d)) rest a
          | None => fmt_verb c minus wid (Some p) (Sprintf_from InText rest) a
          end
      end
  end.

Definition Sprintf (format : string) (a : list arg) : option string :=
  Sprintf_from InText format a.

(** *** The formatter *)

(** The mutex [fmu] only serialises the writes to stdout. *)
Record formatter : Type := mk_formatter {
  isTTY : bool;
  fmtStr : string
}.

(** [stat] is the outcome of [os.Stdout.Stat()]: the mode bits of
    [fi.Mode()], or [None] for an error. *)
Definition newFormatter (stat : option Z) : option formatter :=
  let isTTY :=
    match stat with
    | Some mode =>
        bool_decide (Z.land mode (Z.lor ModeDevice ModeCharDevice) =
                     Z.lor ModeDevice ModeCharDevice)
    | None => false
    end in
  fmtStr ← Sprintf ("%%s%%-%d.%ds%%s" +:+ CR)
             [AInt (Z.of_nat outputLength); AInt (Z.of_nat outputLength)];
  Some (mk_formatter isTTY fmtStr).

(** The line that [showStatusLine] writes to stdout. *)
Definition showStatusLine (f : formatter) (text : string) (interrupt : bool) : option string :=
  if isTTY f then
    let leading := if interrupt then redBold else bold in
    let text :=
      if decide (outputLength < String.length text)%nat
      then String.substring 0 (outputLength - 3) text +:+ "..."
      else text in
    Sprintf (fmtStr f) [AStr leading; AStr text; AStr graphicsOff]
  else Sprintf ("Processing link: '%s'" +:+ newline) [AStr text].

(** The format that [newFormatter] builds. *)
Definition status_format : string := "%s%-75.75s%s" +:+ CR.

(** A terminal ([crw--w----]) and a regular file. *)
Definition sample_tty_mode : Z := 2 ^ 26 + 2 ^ 21 + 400.
Definition sample_file_mode : Z := 420.

Definition sample_long_link : string :=
  "http://site.test/a/very/long/path/that/does/not/fit/into/the/status/line/of/the/terminal".

(** ** Further sample inputs *)

(** [sample_schedule] continued until [run] leaves its loop: the two
    records are fetched and their batches received. *)
Definition sample_full_schedule : list action :=
  sample_schedule ++
  [ACtl; AWorkerRecv; AWorkerRecv; AWorkerSubmit 0; AWorkerSubmit 0;
   ACtl; ACtl; ACtl; ACtl; ACtl; ACtl; ACtl; ACtl].
(** * Properties *)

(** ** Machine integers *)

Lemma wrap64_in_int z : in_int z -> wrap64 z = z.
Proof.
  unfold in_int, min_int, max_int, wrap64. intros H.
  rewrite Z.mod_small; lia.
Qed.

Lemma wrap64_range z : in_int (wrap64 z).
Proof.
  unfold in_int, min_int, max_int, wrap64.
  pose proof (Z.mod_pos_bound (z + 2 ^ 63) (2 ^ 64)). lia.
Qed.

Lemma wrap64_add_l a b : wrap64 (wrap64 a + b) = wrap64 (a + b).
Proof.
  unfold wrap64. f_equal.
  replace ((a + 2 ^ 63) mod 2 ^ 64 - 2 ^ 63 + b + 2 ^ 63)
    with ((a + 2 ^ 63) mod 2 ^ 64 + b) by lia.
  rewrite Zplus_mod_idemp_l. f_equal. lia.
Qed.


(** ** The merge of a page histogram *)

Lemma index_add_word_ne (m : gmap string Z) kv k :
  kv.1 ≠ k -> index (add_word m kv) k = index m k.
Proof. intros. unfold index, add_word. by rewrite lookup_insert_ne. Qed.

(** The entries of a map are merged independently of each other. *)
Lemma merge_entries_lookup (es : list (string * Z)) (w : gmap string Z) k :
  NoDup es.*1 ->
  merge_entries w es !! k =
    match (list_to_map es : gmap string Z) !! k with
    | Some v => Some (wrap64 (index w k + v))
    | None => w !! k
    end.
Proof.
  revert w. induction es as [|[k0 v0] es IH]; intros w Hnd; simpl.
  - by rewrite lookup_empty.
  - apply NoDup_cons in Hnd as [Hk0 Hnd].
    unfold merge_entries in *. rewrite (IH _ Hnd).
    destruct (decide (k0 = k)) as [->|Hne].
    + rewrite lookup_insert_eq.
      rewrite (not_elem_of_list_to_map_1 (M := gmap string) es k) by done.
      unfold add_word. simpl. by rewrite lookup_insert_eq.
    + rewrite (lookup_insert_ne (M := gmap string)) by done.
      rewrite index_add_word_ne by done.
      unfold add_word. simpl. by rewrite lookup_insert_ne.
Qed.

Lemma merge_words_lookup (w wds : gmap string Z) k :
  merge_words w wds !! k =
    match wds !! k with
    | Some v => Some (wrap64 (index w k + v))
    | None => w !! k
    end.
Proof.
  unfold merge_words. rewrite merge_entries_lookup by apply NoDup_fst_map_to_list.
  by rewrite list_to_map_to_list.
Qed.

(** The order in which the range statement enumerates the page
    histogram does not matter. *)
Lemma merge_entries_any_order (w wds : gmap string Z) es :
  es ≡ₚ map_to_list wds -> merge_entries w es = merge_words w wds.
Proof.
  intros Hp. apply map_eq. intros k.
  rewrite merge_words_lookup, merge_entries_lookup.
  - assert ((list_to_map es : gmap string Z) = wds) as ->; [|done].
    rewrite <- (list_to_map_to_list wds).
    apply list_to_map_proper; [|done].
    rewrite Hp. apply NoDup_fst_map_to_list.
  - rewrite Hp. apply NoDup_fst_map_to_list.
Qed.

Lemma index_merge_words (w wds : gmap string Z) k :
  index (merge_words w wds) k =
    match wds !! k with
    | Some v => wrap64 (index w k + v)
    | None => index w k
    end.
Proof. unfold index at 1. rewrite merge_words_lookup. by destruct (wds !! k). Qed.



(** ** [addLinkData] *)

(** The world after a call of [addLinkData], field by field. *)
Lemma addLinkData_eq sr wds links w :
  wf_mu (wf w) = false ->
  addLinkData sr wds links w =
    Some (let f := wf w in
          let room := bool_decide (length (buf (wf_filter f)) < cap (wf_filter f))%nat in
          mk_World
            (mk_WordFinder
               (merge_words (wf_words f) wds)
               (if err sr is Some _ then append (wf_errRecs f) sr else wf_errRecs f)
               (wf_target f) (wf_startURL f)
               (if room then mk_chan (buf (wf_filter f) ++ [links]) (cap (wf_filter f))
                else wf_filter f)
               (wf_interrupt f) false
               (if room
                then mk_RunStats (wrap64 (chanFree (wf_stats f) + 1)) (chanBlocked (wf_stats f))
                else mk_RunStats (chanFree (wf_stats f)) (wrap64 (chanBlocked (wf_stats f) + 1))))
            (if room then spawned w else spawned w ++ [links])).
Proof.
  intros Hmu. destruct w as [f sp]. simpl in *.
  unfold addLinkData, lock. simpl. rewrite Hmu. simpl.
  unfold try_send_filter, chan_send. simpl.
  destruct (err sr); simpl;
    (case_decide as Hroom;
     [rewrite (bool_decide_eq_true_2 _ Hroom)|rewrite (bool_decide_eq_false_2 _ Hroom)];
     simpl; destruct f; reflexivity).
Qed.

Lemma addLinkData_returns sr wds links w :
  wf_mu (wf w) = false ->
  ∃ w', addLinkData sr wds links w = Some w' ∧ wf_mu (wf w') = false.
Proof.
  intros Hmu. rewrite addLinkData_eq by done. eexists; split; [done|]. done.
Qed.

Lemma relief_send_eq i w b :
  spawned w !! i = Some b ->
  (length (buf (wf_filter (wf w))) < cap (wf_filter (wf w)))%nat ->
  relief_send i w =
    Some (mk_World
            (set_filter (mk_chan (buf (wf_filter (wf w)) ++ [b]) (cap (wf_filter (wf w))))
                        (wf w))
            (delete i (spawned w))).
Proof.
  intros Hi Hroom. unfold relief_send, chan_send. rewrite Hi. simpl.
  by rewrite decide_True.
Qed.

(** ** Sequences of submissions *)

Lemma submit_all_app calls1 calls2 w :
  submit_all (calls1 ++ calls2) w = w' ← submit_all calls1 w; submit_all calls2 w'.
Proof.
  revert w. induction calls1 as [|c calls1 IH]; intros w; simpl; [done|].
  destruct (addLinkData _ _ _ w); simpl; [apply IH|done].
Qed.

(** Every call returns, and the histogram and the error log after a
    sequence of calls are those of a fold over the calls. *)
Lemma submit_all_eq calls w :
  wf_mu (wf w) = false ->
  ∃ w', submit_all calls w = Some w' ∧ wf_mu (wf w') = false ∧
    wf_words (wf w') = foldl merge_words (wf_words (wf w)) (sub_wds <$> calls) ∧
    wf_errRecs (wf w') =
      foldl (fun e c => if has_err (sub_sr c) then append e (sub_sr c) else e)
            (wf_errRecs (wf w)) calls.
Proof.
  revert w. induction calls as [|c calls IH]; intros w Hmu; simpl.
  - by exists w.
  - rewrite addLinkData_eq by done. simpl.
    edestruct IH as (w' & -> & Hmu' & Hw & He); [|exists w'; split_and!; try done].
    + done.
    + rewrite He. simpl. unfold has_err. by destruct (err (sub_sr c)).
Qed.

Lemma wrap64_succ_ne x : wrap64 (x + 1) ≠ x.
Proof.
  unfold wrap64. intros H.
  assert ((x + 1 + 2 ^ 63) mod 2 ^ 64 = x + 2 ^ 63) as Hm by lia.
  pose proof (Z.mod_pos_bound (x + 1 + 2 ^ 63) (2 ^ 64) ltac:(lia)) as Hb.
  assert ((x + 2 ^ 63) mod 2 ^ 64 = x + 2 ^ 63) as Hs by (apply Z.mod_small; lia).
  replace (x + 1 + 2 ^ 63) with ((x + 2 ^ 63) + 1) in Hm by lia.
  rewrite <- Zplus_mod_idemp_l, Hs in Hm.
  destruct (decide (x + 2 ^ 63 + 1 < 2 ^ 64)) as [Hlt|Hge].
  - rewrite Z.mod_small in Hm; lia.
  - assert (x + 2 ^ 63 + 1 = 2 ^ 64) as He by lia.
    rewrite He, Z_mod_same_full in Hm. lia.
Qed.

(** C4. With a buffered filter channel, every call of [addLinkData] that
    gets the mutex returns with the mutex released and has incremented
    exactly one of the two counters:
    [chanFree] when the filter channel had room, and then the link list
    is the newest element of the channel; [chanBlocked] when the channel
    was full, and then the channel is as it was and the link list is held
    by one newly spawned goroutine.  The send of such a goroutine, in any
    later world, waits while the channel is full, and when it proceeds it
    puts the link list into the channel once and the goroutine is gone. *)
Theorem addLinkData_backpressure sr wds links w :
  wf_mu (wf w) = false ->
  (0 < cap (wf_filter (wf w)))%nat ->
  ∃ w', addLinkData sr wds links w = Some w' ∧
    wf_mu (wf w') = false ∧
    cap (wf_filter (wf w')) = cap (wf_filter (wf w)) ∧
    ((length (buf (wf_filter (wf w))) < cap (wf_filter (wf w)))%nat ->
       chanFree (wf_stats (wf w')) = wrap64 (chanFree (wf_stats (wf w)) + 1) ∧
       chanFree (wf_stats (wf w')) ≠ chanFree (wf_stats (wf w)) ∧
       chanBlocked (wf_stats (wf w')) = chanBlocked (wf_stats (wf w)) ∧
       buf (wf_filter (wf w')) = buf (wf_filter (wf w)) ++ [links] ∧
       spawned w' = spawned w) ∧
    ((cap (wf_filter (wf w)) <= length (buf (wf_filter (wf w))))%nat ->
       chanBlocked (wf_stats (wf w')) = wrap64 (chanBlocked (wf_stats (wf w)) + 1) ∧
       chanBlocked (wf_stats (wf w')) ≠ chanBlocked (wf_stats (wf w)) ∧
       chanFree (wf_stats (wf w')) = chanFree (wf_stats (wf w)) ∧
       buf (wf_filter (wf w')) = buf (wf_filter (wf w)) ∧
       spawned w' = spawned w ++ [links]) ∧
    (∀ w2 i, spawned w2 !! i = Some links ->
       ((cap (wf_filter (wf w2)) <= length (buf (wf_filter (wf w2))))%nat ->
          relief_send i w2 = None) ∧
       ((length (buf (wf_filter (wf w2))) < cap (wf_filter (wf w2)))%nat ->
          ∃ w3, relief_send i w2 = Some w3 ∧
            buf (wf_filter (wf w3)) = buf (wf_filter (wf w2)) ++ [links] ∧
            spawned w3 = delete i (spawned w2) ∧
            wf_words (wf w3) = wf_words (wf w2) ∧
            wf_errRecs (wf w3) = wf_errRecs (wf w2) ∧
            wf_stats (wf w3) = wf_stats (wf w2))).
Proof.
  intros Hmu _. rewrite addLinkData_eq by done.
  eexists. split; [reflexivity|]. simpl.
  split_and!; try done.
  - by case_bool_decide.
  - intros Hroom. rewrite bool_decide_eq_true_2 by done. simpl.
    split_and!; try done. apply wrap64_succ_ne.
  - intros Hfull. rewrite bool_decide_eq_false_2 by lia. simpl.
    split_and!; try done. apply wrap64_succ_ne.
  - intros w2 i Hi. split.
    + intros Hfull. unfold relief_send, chan_send. rewrite Hi. simpl.
      by rewrite decide_False by lia.
    + intros Hroom. rewrite (relief_send_eq i w2 links) by done.
      eexists. split; [reflexivity|]. done.
Qed.

Lemma addLinkData_backpressure_witness :
  wf_mu (wf sample_full_world) = false ∧
  (0 < cap (wf_filter (wf sample_full_world)))%nat ∧
  ∃ w', addLinkData sample_ok sample_hist1 ["http://site.test/b"] sample_full_world = Some w' ∧
    chanBlocked (wf_stats (wf w')) = 1 ∧ chanFree (wf_stats (wf w')) = 0 ∧
    spawned w' = [["http://site.test/b"]].
Proof.
  split; [reflexivity|]. split; [simpl; lia|].
  destruct (addLinkData_backpressure sample_ok sample_hist1 ["http://site.test/b"]
              sample_full_world eq_refl ltac:(simpl; lia))
    as (w' & Hw' & _ & _ & _ & Hfull & _).
  exists w'. split; [exact Hw'|].
  destruct Hfull as (Hb & _ & Hf & _ & Hs); [simpl; lia|].
  rewrite Hb, Hf, Hs. split_and!; reflexivity.
Defined.

(** C7. A call of [addLinkData] appends the submitted record to the
    error log exactly when its error is not nil, and leaves the log as it
    is otherwise; in both cases the old log is a prefix of the new one, so
    no entry is removed or changed. *)
Theorem addLinkData_errRecs sr wds links w :
  wf_mu (wf w) = false ->
  ∃ w', addLinkData sr wds links w = Some w' ∧
    (err sr ≠ None -> wf_errRecs (wf w') = append (wf_errRecs (wf w)) sr) ∧
    (err sr = None -> wf_errRecs (wf w') = wf_errRecs (wf w)) ∧
    (elems (wf_errRecs (wf w')) = elems (wf_errRecs (wf w)) ++ [sr] <-> err sr ≠ None) ∧
    elems (wf_errRecs (wf w)) `prefix_of` elems (wf_errRecs (wf w')) ∧
    (∀ i r, elems (wf_errRecs (wf w)) !! i = Some r ->
            elems (wf_errRecs (wf w')) !! i = Some r).
Proof.
  intros Hmu. rewrite addLinkData_eq by done.
  eexists. split; [reflexivity|]. simpl.
  destruct (err sr) as [e|] eqn:He; simpl.
  - split_and!; try done.
    + by exists [sr].
    + intros i r Hi. by apply lookup_app_l_Some.
  - split_and!; try done.
    split; [|done]. intros Heq.
    apply (f_equal length) in Heq. rewrite length_app in Heq. simpl in Heq. lia.
Qed.

Lemma addLinkData_errRecs_witness :
  wf_mu (wf (sample_world 1)) = false ∧
  ∃ w', addLinkData sample_failed ∅ [] (sample_world 1) = Some w' ∧
    wf_errRecs (wf w') = mk_slice [sample_failed].
Proof.
  split; [reflexivity|].
  destruct (addLinkData_errRecs sample_failed ∅ [] (sample_world 1) eq_refl)
    as (w' & Hw' & Happ & _).
  exists w'. split; [exact Hw'|].
  rewrite Happ; [reflexivity|discriminate].
Defined.



(** Outside the range of [int] the addition wraps around: the count of
    a word can then become smaller. *)
Example merge_wraps_around :
  merge_words {[ "a" := max_int ]} {[ "a" := 1 ]} !! "a" = Some min_int.
Proof. rewrite merge_words_lookup, lookup_singleton_eq. reflexivity. Qed.



(** ** The error log *)

Lemma errRecs_fold calls e0 :
  let e := foldl (fun e c => if has_err (sub_sr c) then append e (sub_sr c) else e) e0 calls in
  elems e = elems e0 ++ filter (fun r => has_err r) (sub_sr <$> calls) ∧
  is_nil e = is_nil e0 && forallb (fun c => negb (has_err (sub_sr c))) calls.
Proof.
  revert e0. induction calls as [|c calls IH]; intros e0; simpl.
  - rewrite app_nil_r, andb_true_r. done.
  - destruct (has_err (sub_sr c)) eqn:Hc; simpl.
    + destruct (IH (append e0 (sub_sr c))) as [-> ->]. simpl.
      rewrite filter_cons_True by (by rewrite Hc).
      rewrite <- app_assoc, andb_false_r. done.
    + destruct (IH e0) as [-> ->].
      rewrite filter_cons_False by (rewrite Hc; intros []). done.
Qed.

Lemma mapM_error_line (l : list SearchRecord) :
  Forall (fun r => has_err r) l -> mapM error_line l = Some (error_report <$> l).
Proof.
  intros Hl. apply mapM_Some, Forall2_fmap_r, Forall_Forall2_diag.
  eapply Forall_impl; [exact Hl|]. intros r Hr. simpl.
  unfold error_line, error_report, has_err in *.
  destruct (err r) as [e|] eqn:He; simpl; [reflexivity|contradiction].
Qed.

(** C10. After any sequence of submissions to a new finder, [getErrors]
    is nil exactly when no submitted record carried an error; otherwise it
    holds the records with an error, in the order of their submissions.
    [showStatus] prints the no-errors notice in the first case and one
    line per failed URL in the second. *)
Theorem getErrors_nil_iff (calls : list submission) (seed host : string) (capacity : nat) :
  ∃ w', submit_all calls (mk_World (newWordFinder seed host capacity) []) = Some w' ∧
    (getErrors (wf w') = nil_slice <-> ∀ c, c ∈ calls -> err (sub_sr c) = None) ∧
    elems (getErrors (wf w')) = filter (fun r => has_err r) (sub_sr <$> calls) ∧
    ((∀ c, c ∈ calls -> err (sub_sr c) = None) ->
       showStatus_errors (wf w') = Some [no_errors_notice]) ∧
    ((∃ c, c ∈ calls ∧ err (sub_sr c) ≠ None) ->
       getErrors (wf w') = mk_slice (filter (fun r => has_err r) (sub_sr <$> calls)) ∧
       showStatus_errors (wf w') =
         Some (error_report <$> filter (fun r => has_err r) (sub_sr <$> calls))).
Proof.
  destruct (submit_all_eq calls (mk_World (newWordFinder seed host capacity) []) eq_refl)
    as (w' & Hw' & _ & _ & He).
  exists w'. split; [exact Hw'|].
  unfold showStatus_errors, getErrors. rewrite He. simpl.
  destruct (errRecs_fold calls nil_slice) as [Hel Hnil]. simpl in Hel, Hnil.
  set (e := foldl _ _ _) in *.
  assert (is_nil e = true <-> ∀ c, c ∈ calls -> err (sub_sr c) = None) as Hiff.
  { rewrite Hnil, forallb_forall. split.
    - intros H c Hc. apply list_elem_of_In, H in Hc. unfold has_err in Hc.
      by destruct (err (sub_sr c)).
    - intros H c Hc. apply list_elem_of_In, H in Hc. unfold has_err. by rewrite Hc. }
  split_and!.
  - rewrite <- Hiff. by destruct e.
  - exact Hel.
  - intros Hall. by rewrite (proj2 Hiff Hall).
  - intros (c & Hc & Herr).
    assert (is_nil e = false) as Hf.
    { apply not_true_is_false. intros Hn. exact (Herr (proj1 Hiff Hn c Hc)). }
    rewrite Hf. split.
    + destruct e; [done|]. simpl in Hel. by rewrite Hel.
    + rewrite Hel. apply mapM_error_line, Forall_forall.
      intros r Hr. by apply list_elem_of_filter in Hr as [Hr _].
Qed.

(** ** Start-up *)




(** ** Ranking *)

Lemma StronglySorted_lookup {A} (R : relation A) (l : list A) i j a b :
  StronglySorted R l -> (i < j)%nat -> l !! i = Some a -> l !! j = Some b -> R a b.
Proof.
  intros Hs. revert i j. induction Hs as [|x l Hs IH Hx]; intros i j Hij Hi Hj.
  - done.
  - destruct j as [|j]; [lia|]. simpl in Hj. destruct i as [|i]; simpl in Hi.
    + injection Hi as <-. rewrite Forall_forall in Hx.
      apply Hx. by eapply list_elem_of_lookup_2.
    + eapply (IH i j); [lia|done..].
Qed.

Lemma insert_by_Less_perm x l : insert_by_Less x l ≡ₚ x :: l.
Proof.
  induction l as [|y l IH]; simpl; [done|].
  destruct (Less y x); [|done]. rewrite IH. apply Permutation_swap.
Qed.

Lemma insertion_sort_perm l : insertion_sort l ≡ₚ l.
Proof.
  induction l as [|x l IH]; simpl; [done|].
  unfold insertion_sort in *. simpl. by rewrite insert_by_Less_perm, IH.
Qed.

Lemma insert_by_Less_sorted x l :
  sorted_by_Less l -> sorted_by_Less (insert_by_Less x l).
Proof.
  unfold sorted_by_Less. induction 1 as [|y l Hs IH Hy]; simpl.
  - repeat constructor.
  - destruct (Less y x) eqn:Hyx.
    + constructor; [done|].
      rewrite insert_by_Less_perm. constructor; [|done].
      unfold Less in *. apply bool_decide_eq_true in Hyx.
      apply bool_decide_eq_false. lia.
    + constructor; [by constructor|].
      constructor; [done|].
      eapply Forall_impl; [exact Hy|]. intros z Hz. simpl in Hz.
      unfold Less in *. apply bool_decide_eq_false in Hyx, Hz.
      apply bool_decide_eq_false. lia.
Qed.

Lemma insertion_sort_sorted l : sorted_by_Less (insertion_sort l).
Proof.
  induction l as [|x l IH]; simpl; [constructor|].
  by apply insert_by_Less_sorted.
Qed.

(** [Less] compares the counts only: both orders of two words with the
    same count are sorted. *)
Example ties_unconstrained :
  sorted_by_Less [mk_kvPair "berry" 9; mk_kvPair "cherry" 9] ∧
  sorted_by_Less [mk_kvPair "cherry" 9; mk_kvPair "berry" 9].
Proof. split; repeat constructor. Qed.

Section Ranking.
Variable range_order : gmap string Z -> list (string * Z).
Variable sort_Sort : list kvPair -> list kvPair.
Variable totWords : nat.

(** The range statement enumerates every entry of the map once, in some
    order, and [sort.Sort] rearranges its argument so that no element is
    [Less] than an earlier one. *)
Hypothesis range_order_perm : ∀ m, range_order m ≡ₚ map_to_list m.
Hypothesis sort_Sort_perm : ∀ l, sort_Sort l ≡ₚ l.
Hypothesis sort_Sort_sorted : ∀ l, sorted_by_Less (sort_Sort l).

Lemma sorter_perm (w : WordFinder) :
  sort_Sort (to_kvPair <$> range_order (wf_words w)) ≡ₚ
    to_kvPair <$> map_to_list (wf_words w).
Proof. by rewrite sort_Sort_perm, range_order_perm. Qed.

Lemma getResults_prefix (w : WordFinder) :
  getResults range_order sort_Sort totWords w =
    take (Nat.min totWords (size (wf_words w)))
         (sort_Sort (to_kvPair <$> range_order (wf_words w))).
Proof.
  unfold getResults.
  assert (length (sort_Sort (to_kvPair <$> range_order (wf_words w))) = size (wf_words w))
    as Hlen.
  { by rewrite sorter_perm, length_fmap, length_map_to_list. }
  rewrite Hlen. case_decide; f_equal; lia.
Qed.

Lemma elem_of_sorter (w : WordFinder) (p : kvPair) :
  p ∈ sort_Sort (to_kvPair <$> range_order (wf_words w)) <->
  wf_words w !! key p = Some (value p).
Proof.
  rewrite sorter_perm, list_elem_of_fmap. split.
  - intros ([k v] & -> & Hkv). by apply elem_of_map_to_list in Hkv.
  - intros Hp. exists (key p, value p). split; [by destruct p|].
    by apply elem_of_map_to_list.
Qed.

Lemma sorter_keys_NoDup (w : WordFinder) :
  NoDup (key <$> sort_Sort (to_kvPair <$> range_order (wf_words w))).
Proof.
  rewrite sorter_perm, <- list_fmap_compose.
  apply (NoDup_fst_map_to_list (wf_words w)).
Qed.

(** C6. [getResults] returns [min N d] pairs, where [N] is [tot_words]
    and [d] the number of distinct words; each pair is an entry of the
    histogram with its count, no word is returned twice, the counts never
    increase along the result, every word left out has a count no larger
    than each returned one, and when the histogram has at most [N] words
    all of them are returned. *)
Theorem getResults_top (w : WordFinder) :
  let res := getResults range_order sort_Sort totWords w in
  length res = Nat.min totWords (size (wf_words w)) ∧
  (∀ p, p ∈ res -> wf_words w !! key p = Some (value p)) ∧
  NoDup (key <$> res) ∧
  (∀ i j a b, (i < j)%nat -> res !! i = Some a -> res !! j = Some b ->
     value b <= value a) ∧
  (∀ k v p, wf_words w !! k = Some v -> mk_kvPair k v ∉ res -> p ∈ res ->
     v <= value p) ∧
  ((size (wf_words w) <= totWords)%nat ->
     res ≡ₚ to_kvPair <$> map_to_list (wf_words w)).
Proof.
  intros res. subst res. rewrite getResults_prefix.
  set (sorter := sort_Sort (to_kvPair <$> range_order (wf_words w))).
  set (n := Nat.min totWords (size (wf_words w))).
  assert (length sorter = size (wf_words w)) as Hlen.
  { unfold sorter. by rewrite sorter_perm, length_fmap, length_map_to_list. }
  pose proof (sort_Sort_sorted (to_kvPair <$> range_order (wf_words w))) as Hs.
  fold sorter in Hs. unfold sorted_by_Less in Hs.
  split_and!.
  - rewrite length_take. lia.
  - intros p Hp. apply elem_of_sorter. fold sorter.
    eapply elem_of_sublist; [exact Hp|apply sublist_take].
  - eapply sublist_NoDup; [apply sorter_keys_NoDup|].
    rewrite fmap_take. apply sublist_take.
  - intros i j a b Hij Hi Hj.
    apply lookup_take_Some in Hi as [Hi _], Hj as [Hj _].
    pose proof (StronglySorted_lookup _ _ _ _ _ _ Hs Hij Hi Hj) as HR.
    simpl in HR. unfold Less in HR. apply bool_decide_eq_false in HR. lia.
  - intros k v p Hk Hnot Hp.
    assert (mk_kvPair k v ∈ sorter) as Hin by (by apply elem_of_sorter).
    rewrite <- (take_drop n sorter) in Hin, Hs.
    apply elem_of_app in Hin as [Hin|Hin]; [done|].
    pose proof (StronglySorted_app_1_elem_of _ _ _ _ _ Hs Hp Hin) as HR.
    simpl in HR. unfold Less in HR. apply bool_decide_eq_false in HR. simpl in HR. lia.
  - intros Hsz. rewrite take_ge by lia. apply sorter_perm.
Qed.
End Ranking.

Lemma getResults_top_witness :
  let res := getResults map_to_list insertion_sort 2 sample_finder in
  length res = 2%nat ∧ value <$> res = [9; 9].
Proof.
  pose proof (getResults_top map_to_list insertion_sort 2
                (fun m => reflexivity (map_to_list m))
                insertion_sort_perm insertion_sort_sorted sample_finder) as H.
  simpl in H. destruct H as (Hlen & _).
  split; [exact Hlen|vm_compute; reflexivity].
Defined.

(** ** Runs of the crawl *)

Lemma exec_app fetch concurrency acts1 acts2 s :
  exec fetch concurrency (acts1 ++ acts2) s =
    s' ← exec fetch concurrency acts1 s; exec fetch concurrency acts2 s'.
Proof.
  revert s. induction acts1 as [|a acts1 IH]; intros s; simpl; [done|].
  destruct (step fetch concurrency a s); simpl; [apply IH|done].
Qed.

Lemma exec_snoc fetch concurrency acts a s s' :
  exec fetch concurrency (acts ++ [a]) s = Some s' <->
  ∃ s1, exec fetch concurrency acts s = Some s1 ∧ step fetch concurrency a s1 = Some s'.
Proof.
  rewrite exec_app. split.
  - intros H. destruct (exec fetch concurrency acts s) as [s1|]; [|done].
    simpl in H. exists s1. split; [done|].
    by destruct (step fetch concurrency a s1).
  - intros (s1 & -> & H). simpl. by rewrite H.
Qed.

Lemma enqueued_snoc tr e :
  enqueued (tr ++ [e]) = enqueued tr ++ (if e is EvEnqueue u then [u] else []).
Proof. unfold enqueued. rewrite omap_app. by destruct e. Qed.

Lemma visits_snoc tr e :
  visits (tr ++ [e]) = visits tr ++ (if e is EvVisit u then [u] else []).
Proof. unfold visits. rewrite omap_app. by destruct e. Qed.

Lemma consumed_snoc tr e :
  consumed (tr ++ [e]) = consumed tr ++ (if e is EvConsume b then [b] else []).
Proof. unfold consumed. rewrite omap_app. by destruct e. Qed.

Lemma submitted_snoc tr e :
  submitted (tr ++ [e]) = submitted tr ++ (if e is EvSubmit c then [c] else []).
Proof. unfold submitted. rewrite omap_app. by destruct e. Qed.

(** Closes the arithmetic side of an invariant, after using the
    implications among the hypotheses that apply. *)
Ltac inv_arith :=
  intros;
  repeat match goal with
         | H : ?P -> _, H' : ?P |- _ => specialize (H H')
         | H : _ ∨ _ -> _ |- _ => first [specialize (H (or_introl eq_refl))
                                        |specialize (H (or_intror eq_refl))]
         | H : _ = _ -> _ |- _ => specialize (H eq_refl)
         end;
  try match goal with H : _ = _ ∨ _ = _ |- _ => destruct H end;
  try discriminate;
  first [lia|done|tauto].

(** Closes the goal on the URLs sent, from the same fact before the
    step. *)
Ltac by_dedup H :=
  simpl in H; rewrite ?app_nil_r in H; simpl; rewrite ?app_nil_r;
  first [exact H|rewrite <- H; solve_Permutation
        |rewrite <- app_assoc, <- H; solve_Permutation].

Lemma given_up_snoc tr e :
  given_up (tr ++ [e]) = given_up tr ++ (if e is EvGiveUp u then [u] else []).
Proof. unfold given_up. rewrite omap_app. by destruct e. Qed.

Lemma iterated_snoc tr e :
  iterated (tr ++ [e]) = iterated tr ++ (if e is EvIterated then [tt] else []).
Proof. unfold iterated. rewrite omap_app. by destruct e. Qed.

Ltac trace_snoc :=
  rewrite ?enqueued_snoc, ?visits_snoc, ?consumed_snoc, ?submitted_snoc,
    ?given_up_snoc, ?iterated_snoc; simpl;
  rewrite ?app_nil_r.

Section CrawlInvariant.
Variable fetch : bool -> string -> PageResult.
Variable concurrency : nat.
Variable U : list string.
Variable seed : string.
Variable capacity : nat.

Hypothesis closed : graph_closed fetch U = true.
Hypothesis seed_in_U : seed ∈ U.
Hypothesis fits_int : Z.of_nat (length U) + 3 <= max_int.

Local Abbreviation inv := (inv U seed capacity).
Local Abbreviation step := (step fetch concurrency).
Local Abbreviation exec := (exec fetch concurrency).

Lemma links_in_U c u x : u ∈ U -> x ∈ pr_links (fetch c u) -> x ∈ U.
Proof.
  intros Hu Hx. unfold graph_closed in closed.
  rewrite forallb_forall in closed.
  apply list_elem_of_In, closed in Hu. rewrite forallb_forall in Hu.
  assert (In x (pr_links (fetch true u) ++ pr_links (fetch false u))) as Hin.
  { apply list_elem_of_In, elem_of_app. destruct c; auto. }
  apply Hu in Hin. by apply bool_decide_eq_true in Hin.
Qed.

Lemma inv_init host : inv (init seed host capacity).
Proof.
  constructor; simpl; try done; try tauto.
  - intros u. rewrite lookup_empty. split; [done|]. by intros ?%elem_of_nil.
  - apply NoDup_nil_2.
Qed.

Lemma inv_cancel s s' : inv s -> step ACancel s = Some s' -> inv s'.
Proof.
  intros [] Hstep. simpl in Hstep.
  destruct (cancelled s) eqn:Hc; [done|]. injection Hstep as <-.
  constructor; simpl; trace_snoc; done.
Qed.

Lemma inv_worker_recv s s' : inv s -> step AWorkerRecv s = Some s' -> inv s'.
Proof.
  intros [] Hstep. simpl in Hstep. case_decide; [|done].
  unfold chan_recv in Hstep.
  destruct (buf (tasks s)) as [|rec rest] eqn:Hbuf; [done|].
  simpl in Hstep. injection Hstep as <-.
  unfold pending in *. rewrite Hbuf in *.
  apply Forall_cons in inv_univ_tasks0 as [Hrec Hrest].
  constructor; unfold pending; simpl in *; trace_snoc; rewrite ?length_app; simpl;
    try done; try inv_arith.
  - rewrite inv_tasks0, fmap_app. simpl. solve_Permutation.
  - apply Forall_app. split; [done|]. by apply Forall_singleton.
Qed.

Lemma inv_relief i s s' : inv s -> step (ARelief i) s = Some s' -> inv s'.
Proof.
  intros [] Hstep. simpl in Hstep. unfold relief_send, chan_send in Hstep.
  destruct (spawned (world s) !! i) as [b|] eqn:Hi; [|done]. simpl in Hstep.
  case_decide as Hroom; [|done]. simpl in Hstep. injection Hstep as <-.
  pose proof (delete_Permutation _ _ _ Hi) as Hperm.
  pose proof (lookup_lt_Some _ _ _ Hi) as Hlt.
  pose proof (length_delete (spawned (world s)) i (mk_is_Some _ _ Hi)) as Hlen.
  assert (Forall (fun x => x ∈ U) b) as Hb.
  { rewrite Forall_lookup in inv_univ_spawned0. by eapply inv_univ_spawned0. }
  unfold pending in *.
  constructor; unfold pending; simpl; trace_snoc; rewrite ?length_app; simpl;
    try done; try inv_arith.
  - rewrite inv_batches0. rewrite Hperm at 1. solve_Permutation.
  - by apply Forall_delete.
  - apply Forall_app. split; [done|]. by apply Forall_singleton.
Qed.

Lemma inv_submit i s s' : inv s -> step (AWorkerSubmit i) s = Some s' -> inv s'.
Proof.
  intros [] Hstep. simpl in Hstep.
  destruct (busy s !! i) as [rec|] eqn:Hi; [|done]. simpl in Hstep.
  unfold processLink in Hstep. rewrite addLinkData_eq in Hstep by done.
  simpl in Hstep. injection Hstep as <-.
  pose proof (delete_Permutation _ _ _ Hi) as Hperm.
  pose proof (lookup_lt_Some _ _ _ Hi) as Hlt.
  pose proof (length_delete (busy s) i (mk_is_Some _ _ Hi)) as Hlen.
  assert (url rec ∈ U) as Hrec.
  { rewrite Forall_lookup in inv_univ_busy0. by eapply inv_univ_busy0. }
  assert (Forall (fun x => x ∈ U) (pr_links (fetch (cancelled s) (url rec)))) as Hb.
  { apply Forall_forall. intros x Hx. by eapply links_in_U. }
  unfold pending in *.
  constructor; unfold pending; simpl; trace_snoc; rewrite ?length_app; simpl;
    try done; try (case_bool_decide; simpl; rewrite ?length_app; simpl; inv_arith).
  - rewrite inv_tasks0, fmap_app. simpl. rewrite Hperm at 1. simpl.
    unfold sub_url at 2. simpl. solve_Permutation.
  - rewrite fmap_app. simpl. rewrite inv_batches0.
    case_bool_decide; simpl; solve_Permutation.
  - rewrite fmap_app, foldl_app. simpl. by rewrite inv_words0.
  - unfold errors_of. rewrite foldl_app. simpl. unfold has_err. simpl.
    fold (errors_of (submitted (trace s))). rewrite inv_errRecs0.
    by destruct (pr_err _).
  - by apply Forall_delete.
  - case_bool_decide; [done|].
    apply Forall_app. split; [done|]. by apply Forall_singleton.
  - case_bool_decide; simpl; [|done].
    apply Forall_app. split; [done|]. by apply Forall_singleton.
Qed.

(** No more records were sent into [tasks] than the start URL and one
    per visited URL, and no more batches are pending than records sent:
    the counter stays far below the largest [int]. *)
Lemma inv_bound s :
  inv s ->
  (pending s <= length (enqueued (trace s)))%nat ∧
  (length (enqueued (trace s)) + at_select (ctl s) <= 1 + length U)%nat.
Proof.
  intros []. split.
  - apply Permutation_length in inv_tasks0, inv_batches0.
    rewrite !length_app, !length_fmap in inv_tasks0.
    rewrite length_fmap, !length_app in inv_batches0. unfold pending. lia.
  - assert (length (visits (trace s)) <= length U)%nat;
      [|destruct (ctl s); simpl in *; lia].
    apply submseteq_length, NoDup_submseteq; [done|].
    intros x Hx. rewrite Forall_forall in inv_univ_visits0. auto.
Qed.

Lemma wrap64_small z : 0 <= z + 1 -> z <= Z.of_nat (length U) + 3 -> wrap64 z = z.
Proof.
  intros H1 H2. apply wrap64_in_int. unfold in_int, min_int, max_int in *. lia.
Qed.

Lemma inv_loop_next s :
  inv s -> (∃ l, ctl s = CLinks l) -> inv (loop_next s).
Proof.
  intros Hinv [l Hl]. destruct (inv_bound s Hinv) as [Hb1 Hb2].
  destruct Hinv. unfold loop_next. rewrite Hl in *. simpl in *.
  rewrite wrap64_small by lia.
  constructor; unfold pending in *; simpl; trace_snoc; rewrite ?length_app; try done;
    try (case_decide; simpl; first [inv_arith|constructor]).
Qed.

Lemma inv_ctl_start s s' :
  inv s -> ctl s = CStart -> ctl_step ACtl s = Some s' -> inv s'.
Proof.
  intros [] Hctl Hstep. unfold ctl_step, chan_send in Hstep.
  rewrite Hctl in *. simpl in Hstep.
  case_decide as Hroom; [|done]. simpl in Hstep. injection Hstep as <-.
  rewrite inv_seed0. unfold pending in *.
  specialize (inv_idle0 (or_introl eq_refl)).
  constructor; unfold pending; simpl; trace_snoc; rewrite ?length_app; simpl;
    try done; try inv_arith.
  - rewrite inv_tasks0, fmap_app. simpl. solve_Permutation.
  - simpl in *. lia.
  - by_dedup inv_dedup0.
  - apply Forall_app. split; [done|]. by apply Forall_singleton.
Qed.

Lemma inv_ctl_recv s s' :
  inv s -> ctl s = CRecv -> ctl_step ACtl s = Some s' -> inv s'.
Proof.
  intros Hinv Hctl Hstep. unfold ctl_step, chan_recv in Hstep.
  rewrite Hctl in Hstep.
  destruct (buf (wf_filter (wf (world s)))) as [|l rest] eqn:Hbuf; [done|].
  simpl in Hstep.
  assert (inv (mk_System (on_wf (set_filter (mk_chan rest (cap (wf_filter (wf (world s))))))
                                (world s))
                         (tasks s) (busy s) (cancelled s) (CLinks l) (cnt s)
                         (visited s) (trace s ++ [EvConsume l]))) as Hmid.
  { destruct Hinv. unfold pending in *. rewrite Hctl, Hbuf in *.
    apply Forall_cons in inv_univ_filter0 as [Hl Hrest].
    constructor; unfold pending; simpl in *; trace_snoc; rewrite ?length_app;
      simpl; try done; try inv_arith.
    - rewrite inv_batches0. solve_Permutation.
    - by_dedup inv_dedup0. }
  destruct (wf_interrupt (wf (world s))); injection Hstep as <-.
  - apply inv_loop_next in Hmid; [exact Hmid|by eexists].
  - exact Hmid.
Qed.

Lemma inv_ctl_link s s' x l :
  inv s -> ctl s = CLinks (x :: l) -> ctl_step ACtl s = Some s' -> inv s'.
Proof.
  intros Hinv Hctl Hstep. destruct (inv_bound s Hinv) as [Hb1 Hb2].
  destruct Hinv. unfold ctl_step in Hstep. rewrite Hctl in *. simpl in *.
  apply Forall_cons in inv_univ_ctl0 as [Hx Hl].
  case_decide as Hvis; injection Hstep as <-.
  - assert (visited s !! x = None) as Hnone.
    { destruct (visited s !! x) as [b|] eqn:Hb; [|done].
      apply inv_visited_true0 in Hb as ->. done. }
    assert (x ∉ visits (trace s)) as Hfresh.
    { rewrite <- inv_visited0, Hnone. done. }
    rewrite wrap64_small by lia.
    constructor; unfold pending in *; simpl; trace_snoc; rewrite ?length_app; simpl;
      try done; try inv_arith.
    + intros u. rewrite elem_of_app, list_elem_of_singleton, <- inv_visited0.
      destruct (decide (x = u)) as [->|Hne].
      * rewrite lookup_insert_eq. tauto.
      * rewrite lookup_insert_ne by done. split; [tauto|].
        intros [?|?]; [done|congruence].
    + intros u b. destruct (decide (x = u)) as [->|Hne].
      * rewrite lookup_insert_eq. congruence.
      * rewrite lookup_insert_ne by done. apply inv_visited_true0.
    + apply NoDup_app. split_and!; [done| |apply NoDup_singleton].
      intros u Hu ->%list_elem_of_singleton. done.
    + simpl in inv_dedup0. rewrite app_nil_r in inv_dedup0.
      rewrite app_comm_cons, <- inv_dedup0. solve_Permutation.
    + apply Forall_singleton, elem_of_app. right. by apply list_elem_of_singleton.
    + by apply Forall_cons.
    + apply Forall_app. split; [done|]. by apply Forall_singleton.
  - constructor; unfold pending in *; simpl; try done; inv_arith.
Qed.

Lemma inv_ctl_done s s' :
  inv s -> (∃ x l, ctl s = CSelect x l) -> ctl_step ACtlDone s = Some s' -> inv s'.
Proof.
  intros Hinv (x & l & Hctl) Hstep. destruct (inv_bound s Hinv) as [Hb1 Hb2].
  destruct Hinv. unfold ctl_step in Hstep. rewrite Hctl in *. simpl in *.
  apply Forall_cons in inv_univ_ctl0 as [Hx Hl].
  destruct (cancelled s); [|done]. injection Hstep as <-.
  rewrite wrap64_small by lia.
  constructor; unfold pending in *; simpl; trace_snoc; rewrite ?length_app; simpl;
    try done; first [inv_arith|by_dedup inv_dedup0].
Qed.

Lemma inv_ctl_send s s' :
  inv s -> (∃ x l, ctl s = CSelect x l) -> ctl_step ACtlSend s = Some s' -> inv s'.
Proof.
  intros Hinv (x & l & Hctl) Hstep.
  destruct Hinv. unfold ctl_step, chan_send in Hstep. rewrite Hctl in *. simpl in *.
  apply Forall_cons in inv_univ_ctl0 as [Hx Hl].
  case_decide as Hroom; [|done]. simpl in Hstep. injection Hstep as <-.
  constructor; unfold pending in *; simpl; trace_snoc; rewrite ?length_app; simpl;
    try done; try inv_arith.
  - rewrite inv_tasks0, fmap_app. simpl. solve_Permutation.
  - by_dedup inv_dedup0.
  - apply Forall_app. split; [done|]. by apply Forall_singleton.
Qed.

Lemma inv_ctl a s s' : inv s -> ctl_step a s = Some s' -> inv s'.
Proof.
  intros Hinv Hstep.
  destruct (ctl s) as [| |[|x l]|x l|] eqn:Hctl.
  - destruct a; try (by unfold ctl_step in Hstep; rewrite Hctl in Hstep).
    by eapply inv_ctl_start.
  - destruct a; try (by unfold ctl_step in Hstep; rewrite Hctl in Hstep).
    by eapply inv_ctl_recv.
  - destruct a; try (by unfold ctl_step in Hstep; rewrite Hctl in Hstep).
    unfold ctl_step in Hstep. rewrite Hctl in Hstep. injection Hstep as <-.
    apply inv_loop_next; eauto.
  - destruct a; try (by unfold ctl_step in Hstep; rewrite Hctl in Hstep).
    by eapply inv_ctl_link.
  - destruct a; try (by unfold ctl_step in Hstep; rewrite Hctl in Hstep).
    + eapply inv_ctl_done; eauto.
    + eapply inv_ctl_send; eauto.
  - destruct a; by unfold ctl_step in Hstep; rewrite Hctl in Hstep.
Qed.

Lemma step_inv a s s' : inv s -> step a s = Some s' -> inv s'.
Proof.
  intros Hinv Hstep. destruct a.
  - by eapply inv_cancel.
  - by eapply inv_worker_recv.
  - by eapply inv_submit.
  - by eapply inv_relief.
  - by eapply inv_ctl.
  - by eapply inv_ctl.
  - by eapply inv_ctl.
Qed.

Lemma exec_inv acts s s' : inv s -> exec acts s = Some s' -> inv s'.
Proof.
  revert s. induction acts as [|a acts IH]; intros s Hinv Hexec; simpl in Hexec.
  - by injection Hexec as <-.
  - destruct (step a s) as [s1|] eqn:Hstep; [|done]. simpl in Hexec.
    eapply IH; [|done]. by eapply step_inv.
Qed.

(** *** Every step brings the end of the run nearer *)

Local Abbreviation steps_left := (measure fetch U).
Local Abbreviation most_links := (max_links fetch U).

Lemma max_links_bound c u :
  u ∈ U -> (length (pr_links (fetch c u)) <= most_links)%nat.
Proof.
  unfold max_links. clear closed seed_in_U fits_int.
  induction U as [|v V IH]; intros Hu; [by apply elem_of_nil in Hu|].
  simpl. apply elem_of_cons in Hu as [->|Hu].
  - destruct c; lia.
  - specialize (IH Hu). lia.
Qed.

Lemma size_unvisited_insert (v : gmap string bool) x :
  x ∈ U -> v !! x = None ->
  (size ((list_to_set U : gset string) ∖ dom (<[x := true]> v)) + 1)%nat =
  size ((list_to_set U : gset string) ∖ dom v).
Proof.
  intros Hx Hv. rewrite dom_insert_L.
  assert ((list_to_set U : gset string) ∖ dom v =
          {[x]} ∪ (list_to_set U : gset string) ∖ ({[x]} ∪ dom v)) as ->.
  { apply set_eq. intros y. rewrite elem_of_union, !elem_of_difference, elem_of_union,
      elem_of_singleton, elem_of_list_to_set.
    destruct (decide (y = x)) as [->|Hne].
    - apply not_elem_of_dom in Hv. tauto.
    - tauto. }
  set (A := (list_to_set U : gset string) ∖ ({[x]} ∪ dom v)).
  assert ({[x]} ## A) as Hd.
  { intros y ->%elem_of_singleton [_ Hy]%elem_of_difference.
    apply Hy, elem_of_union. left. by apply elem_of_singleton. }
  rewrite (size_union {[x]} A Hd), size_singleton. lia.
Qed.

Lemma loop_next_measure s :
  (steps_left (loop_next s) + ctl_weight fetch U (ctl s) <= steps_left s)%nat.
Proof.
  unfold measure, loop_next. simpl. case_decide; simpl; lia.
Qed.

Lemma ctl_step_measure a s s' :
  inv s -> ctl_step a s = Some s' -> (steps_left s' < steps_left s)%nat.
Proof.
  intros Hinv Hstep. unfold ctl_step in Hstep.
  destruct (ctl s) as [| |[|x l]|x l|] eqn:Hctl, a; try done.
  - (* the start URL is sent *)
    unfold chan_send in Hstep. case_decide; [|done]. simpl in Hstep.
    injection Hstep as <-.
    unfold measure. simpl. rewrite Hctl, sum_list_with_app. simpl. lia.
  - (* a batch is received *)
    unfold chan_recv in Hstep.
    destruct (buf (wf_filter (wf (world s)))) as [|l rest] eqn:Hbuf; [done|].
    simpl in Hstep.
    destruct (wf_interrupt (wf (world s))); injection Hstep as <-.
    + match goal with |- (steps_left (loop_next ?s2) < _)%nat =>
        pose proof (loop_next_measure s2) as Hn end.
      eapply Nat.le_lt_trans; [eapply Nat.le_trans; [|exact Hn]; lia|].
      unfold measure. simpl. rewrite Hctl, Hbuf. simpl. unfold batch_weight. lia.
    + unfold measure. simpl. rewrite Hctl, Hbuf. simpl. unfold batch_weight. lia.
  - (* the batch is finished *)
    injection Hstep as <-. pose proof (loop_next_measure s) as Hn.
    rewrite Hctl in Hn. simpl in Hn. lia.
  - (* the next link of the batch *)
    case_decide as Hvis; injection Hstep as <-.
    + assert (visited s !! x = None) as Hnone.
      { destruct (visited s !! x) as [b|] eqn:Hb; [|done].
        apply (inv_visited_true _ _ _ _ Hinv) in Hb as ->. done. }
      assert (x ∈ U) as Hx.
      { pose proof (inv_univ_ctl _ _ _ _ Hinv) as Hc. rewrite Hctl in Hc.
        by apply Forall_cons in Hc as [? _]. }
      pose proof (size_unvisited_insert (visited s) x Hx Hnone) as Hsz.
      unfold measure. simpl. rewrite Hctl, <- Hsz. simpl. lia.
    + unfold measure. simpl. rewrite Hctl. simpl. lia.
  - (* the select takes the cancellation *)
    destruct (cancelled s) eqn:Hc; [|done]. injection Hstep as <-.
    unfold measure. simpl. rewrite Hctl, Hc. simpl. lia.
  - (* the select takes the send *)
    unfold chan_send in Hstep. case_decide; [|done]. simpl in Hstep.
    injection Hstep as <-.
    unfold measure. simpl. rewrite Hctl, sum_list_with_app. simpl. lia.
Qed.

Lemma step_measure a s s' :
  inv s -> step a s = Some s' -> (steps_left s' < steps_left s)%nat.
Proof.
  intros Hinv Hstep. destruct a; simpl in Hstep.
  - (* cancel *)
    destruct (cancelled s) eqn:Hc; [done|]. injection Hstep as <-.
    unfold measure. simpl. rewrite Hc. lia.
  - (* a worker receives *)
    case_decide; [|done]. unfold chan_recv in Hstep.
    destruct (buf (tasks s)) as [|rec rest] eqn:Hbuf; [done|].
    simpl in Hstep. injection Hstep as <-.
    unfold measure. simpl. rewrite Hbuf, sum_list_with_app. simpl. lia.
  - (* a worker submits *)
    destruct (busy s !! i) as [rec|] eqn:Hi; [|done]. simpl in Hstep.
    unfold processLink in Hstep. rewrite addLinkData_eq in Hstep by apply Hinv.
    simpl in Hstep. injection Hstep as <-.
    pose proof (delete_Permutation _ _ _ Hi) as Hperm.
    assert (url rec ∈ U) as Hrec.
    { pose proof (inv_univ_busy _ _ _ _ Hinv) as Hb. rewrite Forall_lookup in Hb. eauto. }
    pose proof (max_links_bound (cancelled s) (url rec) Hrec) as Hmax.
    unfold measure. simpl. rewrite Hperm at 2. simpl.
    case_bool_decide; simpl; rewrite sum_list_with_app; simpl; unfold batch_weight; lia.
  - (* a spawned goroutine sends *)
    unfold relief_send, chan_send in Hstep.
    destruct (spawned (world s) !! i) as [b|] eqn:Hi; [|done]. simpl in Hstep.
    case_decide as Hroom; [|done]. simpl in Hstep. injection Hstep as <-.
    pose proof (delete_Permutation _ _ _ Hi) as Hperm.
    unfold measure. simpl.
    rewrite sum_list_with_app. rewrite Hperm at 2. simpl. lia.
  - by eapply ctl_step_measure.
  - by eapply ctl_step_measure.
  - by eapply ctl_step_measure.
Qed.

Lemma exec_steps_left acts s s' :
  inv s -> exec acts s = Some s' -> (length acts + steps_left s' <= steps_left s)%nat.
Proof.
  revert s. induction acts as [|a acts IH]; intros s Hinv Hexec; simpl in Hexec.
  - injection Hexec as <-. simpl. lia.
  - destruct (step a s) as [s1|] eqn:Hstep; [|done]. simpl in Hexec.
    pose proof (step_measure a s s1 Hinv Hstep).
    pose proof (IH s1 (step_inv a s s1 Hinv Hstep) Hexec). simpl. lia.
Qed.

(** *** No deadlock *)

Hypothesis capacity_pos : (0 < capacity)%nat.
Hypothesis concurrency_pos : (0 < concurrency)%nat.

Lemma submit_enabled s rec :
  inv s -> busy s !! 0%nat = Some rec ->
  ∃ s', step (AWorkerSubmit 0) s = Some s'.
Proof.
  intros Hinv Hrec. simpl. rewrite Hrec. simpl.
  unfold processLink. rewrite addLinkData_eq by apply Hinv. simpl. eauto.
Qed.

Lemma worker_enabled s :
  inv s -> buf (tasks s) ≠ [] ∨ busy s ≠ [] ->
  ∃ a s', a ≠ ACancel ∧ step a s = Some s'.
Proof.
  intros Hinv Hwork.
  destruct (busy s) as [|rec busy'] eqn:Hbusy.
  - destruct Hwork as [Htasks|?]; [|done].
    exists AWorkerRecv. simpl. rewrite Hbusy. simpl.
    rewrite decide_True by done. unfold chan_recv.
    destruct (buf (tasks s)); [done|]. simpl. eauto.
  - destruct (submit_enabled s rec Hinv) as [s' Hs']; [by rewrite Hbusy|].
    exists (AWorkerSubmit 0), s'. done.
Qed.

Lemma progress s :
  inv s -> ctl s ≠ CDone -> ∃ a s', a ≠ ACancel ∧ step a s = Some s'.
Proof.
  intros Hinv Hctl.
  destruct (ctl s) as [| |l|x l|] eqn:Hpc; [| | | |done].
  - (* the start URL can be sent: the channel is empty *)
    exists ACtl. simpl. unfold ctl_step, chan_send. rewrite Hpc.
    pose proof (inv_idle _ _ _ _ Hinv) as Hidle. rewrite Hpc in Hidle.
    specialize (Hidle (or_introl eq_refl)). unfold pending in Hidle.
    rewrite decide_True by (rewrite (inv_cap_tasks _ _ _ _ Hinv); lia).
    simpl. eauto.
  - (* a batch is on its way *)
    pose proof (inv_recv _ _ _ _ Hinv Hpc) as Hpos. unfold pending in Hpos.
    destruct (buf (wf_filter (wf (world s)))) as [|b rest] eqn:Hfilter.
    + destruct (spawned (world s)) as [|b sp] eqn:Hsp.
      * apply worker_enabled; [done|].
        destruct (buf (tasks s)), (busy s); simpl in Hpos; auto; lia.
      * exists (ARelief 0). simpl. rewrite Hsp. simpl.
        unfold relief_send, chan_send. rewrite Hsp, Hfilter. simpl.
        rewrite decide_True by (rewrite (inv_cap_filter _ _ _ _ Hinv); lia).
        simpl. eauto.
    + exists ACtl. simpl. unfold ctl_step, chan_recv. rewrite Hpc, Hfilter. simpl.
      destruct (wf_interrupt _); eauto.
  - (* inside a batch *)
    exists ACtl. simpl. unfold ctl_step. rewrite Hpc.
    destruct l as [|x l]; [eauto|]. case_decide; eauto.
  - (* at the select *)
    destruct (decide (length (buf (tasks s)) < cap (tasks s))%nat) as [Hroom|Hfull].
    + exists ACtlSend. simpl. unfold ctl_step, chan_send. rewrite Hpc.
      rewrite decide_True by done. simpl. eauto.
    + apply worker_enabled; [done|]. left. intros Hnil.
      rewrite Hnil, (inv_cap_tasks _ _ _ _ Hinv) in Hfull. simpl in Hfull. lia.
Qed.

(** Every run can be continued until the loop is left. *)
Lemma run_completes s :
  inv s -> ∃ acts s', exec acts s = Some s' ∧ ctl s' = CDone.
Proof.
  remember (steps_left s) as n eqn:Hn. revert s Hn.
  induction n as [n IH] using lt_wf_ind. intros s -> Hinv.
  assert (ctl s = CDone ∨ ctl s ≠ CDone) as [Hdone|Hnot]
    by (destruct (ctl s); auto).
  - exists [], s. done.
  - destruct (progress s Hinv Hnot) as (a & s1 & _ & Hstep).
    pose proof (step_measure a s s1 Hinv Hstep) as Hlt.
    destruct (IH _ Hlt s1 eq_refl (step_inv a s s1 Hinv Hstep)) as (acts & s' & Hexec & Hd).
    exists (a :: acts), s'. simpl. rewrite Hstep. done.
Qed.

(** *** The counter *)

Lemma inv_pipeline s :
  inv s ->
  (pending s + length (consumed (trace s)) = length (enqueued (trace s)))%nat.
Proof.
  intros []. apply Permutation_length in inv_tasks0, inv_batches0.
  rewrite !length_app, !length_fmap in inv_tasks0.
  rewrite length_fmap, !length_app in inv_batches0. unfold pending. lia.
Qed.

Lemma inv_counter s :
  inv s ->
  0 <= cnt s ∧
  cnt s = Z.of_nat (pending s) + ctl_offset (ctl s) ∧
  cnt s = Z.of_nat (started (ctl s)) + Z.of_nat (length (visits (trace s)))
          - Z.of_nat (length (given_up (trace s)))
          - Z.of_nat (length (iterated (trace s))) ∧
  length (consumed (trace s)) =
    (length (iterated (trace s)) + in_iteration (ctl s))%nat ∧
  (ctl s = CRecv -> 0 < cnt s) ∧
  (ctl s = CDone -> cnt s = 0) ∧
  (ctl s = CRecv ∨ ctl s = CDone ->
     (cnt s = 0 <->
      enqueued (trace s) ≡ₚ (sub_url <$> submitted (trace s)) ∧
      (sub_links <$> submitted (trace s)) ≡ₚ consumed (trace s))).
Proof.
  intros Hinv. pose proof (inv_pipeline s Hinv) as Hpipe. destruct Hinv.
  split_and!.
  - destruct (ctl s); simpl in *; lia.
  - done.
  - destruct (ctl s); simpl in *; lia.
  - done.
  - intros Hc. rewrite Hc in *. simpl in *. inv_arith.
  - intros Hc. rewrite Hc in *. simpl in *. inv_arith.
  - intros Hc.
    assert (ctl_offset (ctl s) = 0) as Hoff by (by destruct Hc as [-> | ->]).
    rewrite inv_cnt0, Hoff. split.
    + intros Hz. assert (pending s = 0%nat) as Hp by lia.
      unfold pending in Hp.
      destruct (buf (tasks s)), (busy s), (spawned (world s)),
        (buf (wf_filter (wf (world s)))); simpl in Hp; try lia.
      simpl in *. done.
    + intros [H1 H2]. apply Permutation_length in H1, H2.
      rewrite length_fmap in H1. rewrite length_fmap in H2. lia.
Qed.

(** C1. On a link graph within a finite set of URLs (cyclic or not),
    with at least one worker and channels of capacity at least one:
    every run takes a bounded number of steps; as long as the loop of
    [run] has not been left some goroutine other than the signal handler
    can take a step, so every run can be continued until the loop is
    left, and then [cnt] is zero.  In every state [cnt] is not negative;
    it counts the link batches that still have to reach [run], plus one
    while a batch is processed and one more between [cnt++] and the
    select; it is the initial one plus one per visited link, minus one
    per select that took the cancellation and per completed iteration;
    each iteration has consumed exactly one batch; and where the loop
    condition has just been evaluated, [cnt] is zero exactly when the
    records sent into [tasks] are those handed to [addLinkData] and the
    batches they produced are those [run] has consumed. *)
Theorem run_terminates (host : string) :
  (∀ acts s, exec acts (init seed host capacity) = Some s ->
     (length acts <= steps_left (init seed host capacity))%nat) ∧
  (∀ acts s, exec acts (init seed host capacity) = Some s -> ctl s ≠ CDone ->
     ∃ a s', a ≠ ACancel ∧ step a s = Some s') ∧
  (∀ acts s, exec acts (init seed host capacity) = Some s ->
     ∃ acts' s', exec (acts ++ acts') (init seed host capacity) = Some s' ∧
       ctl s' = CDone ∧ cnt s' = 0) ∧
  (∀ acts s, exec acts (init seed host capacity) = Some s ->
     0 <= cnt s ∧
     cnt s = Z.of_nat (pending s) + ctl_offset (ctl s) ∧
     cnt s = Z.of_nat (started (ctl s)) + Z.of_nat (length (visits (trace s)))
             - Z.of_nat (length (given_up (trace s)))
             - Z.of_nat (length (iterated (trace s))) ∧
     length (consumed (trace s)) =
       (length (iterated (trace s)) + in_iteration (ctl s))%nat ∧
     (ctl s = CRecv -> 0 < cnt s) ∧
     (ctl s = CDone -> cnt s = 0) ∧
     (ctl s = CRecv ∨ ctl s = CDone ->
        (cnt s = 0 <->
         enqueued (trace s) ≡ₚ (sub_url <$> submitted (trace s)) ∧
         (sub_links <$> submitted (trace s)) ≡ₚ consumed (trace s)))).
Proof.
  pose proof (inv_init host) as Hinit.
  split_and!.
  - intros acts s Hexec. pose proof (exec_steps_left _ _ _ Hinit Hexec). lia.
  - intros acts s Hexec. apply progress. by eapply exec_inv.
  - intros acts s Hexec. pose proof (exec_inv _ _ _ Hinit Hexec) as Hinv.
    destruct (run_completes s Hinv) as (acts' & s' & Hexec' & Hdone).
    exists acts', s'. split_and!; [|done|].
    + rewrite exec_app, Hexec. exact Hexec'.
    + pose proof (exec_inv _ _ _ Hinv Hexec') as Hinv'.
      destruct (inv_counter s' Hinv') as (_ & _ & _ & _ & _ & Hzero & _). auto.
  - intros acts s Hexec. apply inv_counter. by eapply exec_inv.
Qed.

(** *** Deduplication *)

(** The URLs put into [visited] are pairwise distinct; every record sent
    into [tasks] other than the start URL went through [visited] just
    before, and so did the link at the select. *)
Lemma visited_dedup host acts s :
  exec acts (init seed host capacity) = Some s ->
  NoDup (visits (trace s)) ∧
  enqueued (trace s) ++ given_up (trace s) ++ select_link (ctl s) ≡ₚ
    replicate (started (ctl s)) seed ++ visits (trace s) ∧
  (∀ x l, ctl s = CSelect x l -> visited s !! x = Some true) ∧
  (∀ u, u ≠ seed -> u ∈ enqueued (trace s) -> visited s !! u = Some true).
Proof.
  clear capacity_pos concurrency_pos.
  intros Hexec. pose proof (exec_inv _ _ _ (inv_init host) Hexec) as Hinv.
  destruct Hinv. split_and!; try done.
  - intros x l Hctl. rewrite Hctl in inv_select0. simpl in inv_select0.
    rewrite Forall_singleton in inv_select0. by apply inv_visited0.
  - intros u Hne Hu. apply inv_visited0.
    assert (u ∈ replicate (started (ctl s)) seed ++ visits (trace s)) as Hin.
    { rewrite <- inv_dedup0. apply elem_of_app. by left. }
    apply elem_of_app in Hin as [Hin|Hin]; [|done].
    apply elem_of_replicate in Hin as [? _]. done.
Qed.

(** *** Cancellation *)

(** After the interrupt flag is set and [run] is back at the head of
    its loop, no step visits a URL or sends a record. *)
Lemma drain_step a s s' :
  inv s -> wf_interrupt (wf (world s)) = true -> ctl s = CRecv ∨ ctl s = CDone ->
  step a s = Some s' ->
  wf_interrupt (wf (world s')) = true ∧ (ctl s' = CRecv ∨ ctl s' = CDone) ∧
  enqueued (trace s') = enqueued (trace s) ∧ visited s' = visited s.
Proof.
  clear capacity_pos concurrency_pos.
  intros Hinv Hint Hctl Hstep. destruct a; simpl in Hstep.
  - destruct (cancelled s); [done|]. injection Hstep as <-. simpl. by trace_snoc.
  - case_decide; [|done]. unfold chan_recv in Hstep.
    destruct (buf (tasks s)); [done|]. simpl in Hstep. injection Hstep as <-.
    simpl. by trace_snoc.
  - destruct (busy s !! i); [|done]. simpl in Hstep.
    unfold processLink in Hstep. rewrite addLinkData_eq in Hstep by apply Hinv.
    simpl in Hstep. injection Hstep as <-. simpl. by trace_snoc.
  - unfold relief_send, chan_send in Hstep.
    destruct (spawned (world s) !! i); [|done]. simpl in Hstep.
    case_decide; [|done]. simpl in Hstep. injection Hstep as <-. simpl. by trace_snoc.
  - unfold ctl_step, chan_recv in Hstep. destruct Hctl as [Hctl|Hctl]; rewrite Hctl in Hstep; [|done].
    destruct (buf (wf_filter (wf (world s)))); [done|]. simpl in Hstep.
    rewrite Hint in Hstep. injection Hstep as <-. simpl. trace_snoc.
    split_and!; try done. case_decide; auto.
  - unfold ctl_step in Hstep. by destruct Hctl as [Hctl|Hctl]; rewrite Hctl in Hstep.
  - unfold ctl_step in Hstep. by destruct Hctl as [Hctl|Hctl]; rewrite Hctl in Hstep.
Qed.

Lemma drain_exec acts s s' :
  inv s -> wf_interrupt (wf (world s)) = true -> ctl s = CRecv ∨ ctl s = CDone ->
  exec acts s = Some s' ->
  enqueued (trace s') = enqueued (trace s) ∧ visited s' = visited s.
Proof.
  clear capacity_pos concurrency_pos.
  revert s. induction acts as [|a acts IH]; intros s Hinv Hint Hctl Hexec; simpl in Hexec.
  - by injection Hexec as <-.
  - destruct (step a s) as [s1|] eqn:Hstep; [|done]. simpl in Hexec.
    destruct (drain_step a s s1 Hinv Hint Hctl Hstep) as (Hint1 & Hctl1 & Henq & Hvis).
    destruct (IH s1 (step_inv a s s1 Hinv Hstep) Hint1 Hctl1 Hexec) as [-> ->]. done.
Qed.

(** C3, amended.  In every run: the select can take the cancellation
    case only after the cancellation signal has fired, and taking it
    decrements the counter and sets the interrupt flag without sending
    the record; the flag is never set before the signal; once the flag is
    set and [run] is back at the head of its loop, [run] only consumes
    the remaining batches: no URL is put into [visited] and no record is
    sent into [tasks] any more; and when the loop is left every record
    that was sent into [tasks] has been processed, and the histogram and
    the error log are those of exactly these records. *)
Theorem cancellation_drain (host : string) (acts : list action) (s : System) :
  exec acts (init seed host capacity) = Some s ->
  (wf_interrupt (wf (world s)) = true -> cancelled s = true) ∧
  (cancelled s = false -> step ACtlDone s = None) ∧
  (∀ s', step ACtlDone s = Some s' ->
     cnt s' = cnt s - 1 ∧ wf_interrupt (wf (world s')) = true ∧
     tasks s' = tasks s ∧ enqueued (trace s') = enqueued (trace s)) ∧
  (wf_interrupt (wf (world s)) = true -> ctl s = CRecv ∨ ctl s = CDone ->
     ∀ acts' s', exec acts' s = Some s' ->
       enqueued (trace s') = enqueued (trace s) ∧ visited s' = visited s) ∧
  (ctl s = CDone ->
     buf (tasks s) = [] ∧ busy s = [] ∧
     enqueued (trace s) ≡ₚ sub_url <$> submitted (trace s) ∧
     wf_words (wf (world s)) = foldl merge_words ∅ (sub_wds <$> submitted (trace s)) ∧
     wf_errRecs (wf (world s)) = errors_of (submitted (trace s))).
Proof.
  clear capacity_pos concurrency_pos.
  intros Hexec. pose proof (exec_inv _ _ _ (inv_init host) Hexec) as Hinv.
  destruct (inv_bound s Hinv) as [Hb1 Hb2].
  split_and!.
  - apply Hinv.
  - intros Hc. simpl. unfold ctl_step. rewrite Hc. by destruct (ctl s) as [| |[]| |].
  - intros s' Hstep. simpl in Hstep. unfold ctl_step in Hstep.
    destruct (ctl s) as [| |[|y l]|x l|] eqn:Hctl; try done.
    destruct (cancelled s); [|done]. injection Hstep as <-. simpl. trace_snoc.
    split_and!; try done. apply wrap64_small.
    + pose proof (inv_cnt _ _ _ _ Hinv) as Hcnt. rewrite Hctl in Hcnt. simpl in Hcnt. lia.
    + pose proof (inv_cnt _ _ _ _ Hinv) as Hcnt. rewrite Hctl in *. simpl in *. lia.
  - intros Hint Hctl acts' s' Hexec'. by eapply drain_exec.
  - intros Hctl. pose proof (inv_idle _ _ _ _ Hinv (or_intror Hctl)) as Hidle.
    unfold pending in Hidle. destruct Hinv.
    destruct (buf (tasks s)), (busy s); simpl in Hidle; try lia.
    simpl in *. done.
Qed.
End CrawlInvariant.

Lemma run_terminates_witness :
  graph_closed sample_fetch sample_site = true ∧
  sample_seed ∈ sample_site ∧
  Z.of_nat (length sample_site) + 3 <= max_int ∧
  (0 < 2)%nat ∧
  ∃ acts s', exec sample_fetch 2 acts (init sample_seed "site.test" 2) = Some s' ∧
    ctl s' = CDone ∧ cnt s' = 0.
Proof.
  assert (graph_closed sample_fetch sample_site = true) as Hclosed by reflexivity.
  assert (sample_seed ∈ sample_site) as Hseed by (left).
  assert (Z.of_nat (length sample_site) + 3 <= max_int) as Hfits
    by (unfold max_int; simpl; lia).
  assert (0 < 2)%nat as Hpos by lia.
  split_and!; try done.
  destruct (run_terminates sample_fetch 2 sample_site sample_seed 2
              Hclosed Hseed Hfits Hpos Hpos "site.test")
    as (_ & _ & Hcomplete & _).
  destruct (Hcomplete [] _ eq_refl) as (acts & s' & Hexec & Hdone & Hcnt).
  exists acts, s'. done.
Defined.

Lemma cancellation_drain_witness :
  graph_closed sample_fetch sample_site = true ∧
  sample_seed ∈ sample_site ∧
  Z.of_nat (length sample_site) + 3 <= max_int ∧
  ∃ s, exec sample_fetch 2 sample_cancelled_schedule (init sample_seed "site.test" 2) = Some s ∧
    cancelled s = true ∧
    ∀ s', step sample_fetch 2 ACtlDone s = Some s' -> cnt s' = cnt s - 1.
Proof.
  assert (graph_closed sample_fetch sample_site = true) as Hclosed by reflexivity.
  assert (sample_seed ∈ sample_site) as Hseed by (left).
  assert (Z.of_nat (length sample_site) + 3 <= max_int) as Hfits
    by (unfold max_int; simpl; lia).
  split_and!; try done.
  destruct (exec sample_fetch 2 sample_cancelled_schedule (init sample_seed "site.test" 2))
    as [s|] eqn:Hexec; [|vm_compute in Hexec; discriminate].
  exists s. split; [reflexivity|].
  destruct (cancellation_drain sample_fetch 2 sample_site sample_seed 2
              Hclosed Hseed Hfits "site.test" sample_cancelled_schedule s Hexec)
    as (Hflag & _ & Hdone & _).
  split.
  - apply Hflag. vm_compute in Hexec. injection Hexec as <-. reflexivity.
  - intros s' Hs'. by destruct (Hdone s' Hs') as [? _].
Defined.

(** C3, as stated, fails.  On this schedule the signal has fired and the
    select for the first link has taken the cancellation, so the
    interrupt flag is set; the select for the second link of the same
    batch can still take the send, and the start URL is sent into
    [tasks] once more. *)
Lemma enqueue_after_cancel :
  ∃ s1 s2,
    exec sample_fetch 2 sample_cancelled_schedule (init sample_seed "site.test" 2) = Some s1 ∧
    cancelled s1 = true ∧
    wf_interrupt (wf (world s1)) = true ∧
    step sample_fetch 2 ACtlSend s1 = Some s2 ∧
    enqueued (trace s2) = enqueued (trace s1) ++ [sample_seed] ∧
    url <$> buf (tasks s2) = (url <$> buf (tasks s1)) ++ [sample_seed].
Proof.
  destruct (exec sample_fetch 2 sample_cancelled_schedule (init sample_seed "site.test" 2))
    as [s1|] eqn:Hexec; [|vm_compute in Hexec; discriminate].
  vm_compute in Hexec. injection Hexec as <-.
  eexists _, _. split; [reflexivity|]. split_and!; try reflexivity.
Qed.

(** C2: the start URL is sent into [tasks] before the loop without being
    put into [visited]; when the start page links to itself the loop
    sends it a second time. *)
Theorem seed_enqueued_twice :
  ∃ s, exec sample_fetch 2 sample_schedule (init sample_seed "site.test" 2) = Some s ∧
    enqueued (trace s) = [sample_seed; sample_page; sample_seed] ∧
    visits (trace s) = [sample_page; sample_seed] ∧
    ¬ NoDup (enqueued (trace s)).
Proof.
  eexists. split; [vm_compute; reflexivity|]. split_and!; try reflexivity.
  simpl. intros Hnd. apply NoDup_cons in Hnd as [Hnot _].
  apply Hnot. right. left.
Qed.

(** * Further properties *)

(** ** The order of [kvSorter] *)

(** X1. [Less] is a strict weak order on the pairs: nothing is less than
    itself, it is transitive, and so is being not less in either
    direction; two pairs are unordered exactly when their counts are
    equal, whatever their words.  This is what [sort.Sort] requires of a
    [Less] method.  On a slice, [Less(i, j)] holds exactly when the
    element at [i] has the larger count, and it panics exactly when an
    index is not below [Len]. *)
Theorem Less_strict_weak_order :
  (∀ a, Less a a = false) ∧
  (∀ a b, Less a b = true -> Less b a = false) ∧
  (∀ a b c, Less a b = true -> Less b c = true -> Less a c = true) ∧
  (∀ a b c, Less a b = false -> Less b c = false -> Less a c = false) ∧
  (∀ a b, Less a b = false ∧ Less b a = false <-> value a = value b) ∧
  (∀ a b, Less a b = true <-> value b < value a) ∧
  (∀ kvs i j, Less_at kvs i j = Some true <->
     ∃ a b, kvs !! i = Some a ∧ kvs !! j = Some b ∧ value b < value a) ∧
  (∀ kvs i j, Less_at kvs i j = None <-> (Len kvs <= i)%nat ∨ (Len kvs <= j)%nat).
Proof.
  unfold Less_at, Len, Less. split_and!.
  - intros a. apply bool_decide_eq_false. lia.
  - intros a b H%bool_decide_eq_true. apply bool_decide_eq_false. lia.
  - intros a b c H1%bool_decide_eq_true H2%bool_decide_eq_true.
    apply bool_decide_eq_true. lia.
  - intros a b c H1%bool_decide_eq_false H2%bool_decide_eq_false.
    apply bool_decide_eq_false. lia.
  - intros a b. rewrite !bool_decide_eq_false. lia.
  - intros a b. apply bool_decide_eq_true.
  - intros kvs i j. split.
    + destruct (kvs !! i) as [a|]; [|done]. destruct (kvs !! j) as [b|]; [|done].
      simpl. intros [= H%bool_decide_eq_true]. by exists a, b.
    + intros (a & b & -> & -> & H). simpl. f_equal. by apply bool_decide_eq_true.
  - intros kvs i j. rewrite <- !lookup_ge_None.
    destruct (kvs !! i) as [a|]; destruct (kvs !! j) as [b|]; simpl; split;
      try done; try (by intros [?|?]); auto.
Qed.

(** X2. [Swap] with two indices below [Len] exchanges the two elements
    and changes nothing else: the length and the elements as a multiset
    stay, and swapping again gives the slice back.  With an index out of
    range it panics. *)
Theorem Swap_exchanges (kvs : list kvPair) (i j : nat) :
  ((i < Len kvs)%nat ∧ (j < Len kvs)%nat ->
     ∃ kvs', Swap kvs i j = Some kvs' ∧
       Len kvs' = Len kvs ∧
       kvs' !! i = kvs !! j ∧ kvs' !! j = kvs !! i ∧
       (∀ k, k ≠ i -> k ≠ j -> kvs' !! k = kvs !! k) ∧
       kvs' ≡ₚ kvs ∧
       Swap kvs' i j = Some kvs) ∧
  ((Len kvs <= i)%nat ∨ (Len kvs <= j)%nat -> Swap kvs i j = None).
Proof.
  unfold Len, Swap. split.
  - intros [Hi Hj].
    destruct (lookup_lt_is_Some_2 kvs i Hi) as [a Ha].
    destruct (lookup_lt_is_Some_2 kvs j Hj) as [b Hb].
    rewrite Ha, Hb. simpl. eexists. split; [reflexivity|].
    assert (<[j:=a]> (<[i:=b]> kvs) !! i = Some b) as Hi'.
    { destruct (decide (i = j)) as [->|Hne].
      - rewrite list_lookup_insert_eq by (rewrite length_insert; lia). congruence.
      - rewrite list_lookup_insert_ne by done. by rewrite list_lookup_insert_eq. }
    assert (<[j:=a]> (<[i:=b]> kvs) !! j = Some a) as Hj'.
    { rewrite list_lookup_insert_eq by (rewrite length_insert; lia). done. }
    assert (∀ k, k ≠ i -> k ≠ j -> <[j:=a]> (<[i:=b]> kvs) !! k = kvs !! k) as Hk.
    { intros k Hki Hkj. by rewrite !list_lookup_insert_ne. }
    split_and!.
    + by rewrite !length_insert.
    + congruence.
    + congruence.
    + exact Hk.
    + by apply Permutation_insert_swap.
    + rewrite Hi', Hj'. simpl. f_equal. apply list_eq. intros k.
      destruct (decide (k = j)) as [->|Hkj].
      * rewrite list_lookup_insert_eq by (rewrite !length_insert; lia). done.
      * rewrite list_lookup_insert_ne by done.
        destruct (decide (k = i)) as [->|Hki].
        -- rewrite list_lookup_insert_eq by (rewrite !length_insert; lia). done.
        -- rewrite list_lookup_insert_ne by done. by apply Hk.
  - intros [Hi|Hj].
    + by rewrite (lookup_ge_None_2 kvs i Hi).
    + rewrite (lookup_ge_None_2 kvs j Hj). by destruct (kvs !! i).
Qed.

(** ** The global histogram as a sum *)

Lemma dom_merge_words (w h : gmap string Z) :
  dom (merge_words w h) = dom w ∪ dom h.
Proof.
  apply set_eq. intros k.
  rewrite elem_of_union, !elem_of_dom, merge_words_lookup.
  destruct (h !! k) as [v|]; split; intros H; eauto.
  - destruct H as [H|H]; [done|]. by destruct H.
Qed.

Lemma index_foldl_merge_words (hs : list (gmap string Z)) (w : gmap string Z) k :
  in_int (index w k) ->
  index (foldl merge_words w hs) k = wrap64 (index w k + total_count k hs).
Proof.
  revert w. induction hs as [|h hs IH]; intros w Hw; simpl.
  - rewrite Z.add_0_r. symmetry. by apply wrap64_in_int.
  - rewrite IH.
    + rewrite index_merge_words. change (index h k) with (default 0 (h !! k)).
      destruct (h !! k) as [v|]; simpl.
      * rewrite wrap64_add_l. f_equal. lia.
      * done.
    + rewrite index_merge_words. destruct (h !! k); [apply wrap64_range|done].
Qed.

Lemma dom_foldl_merge_words (hs : list (gmap string Z)) (w : gmap string Z) :
  dom (foldl merge_words w hs) = dom w ∪ ⋃ (dom <$> hs).
Proof.
  revert w. induction hs as [|h hs IH]; intros w; simpl.
  - by rewrite union_empty_r_L.
  - rewrite IH, dom_merge_words. symmetry. apply (assoc_L (∪)).
Qed.

(** X3. After any sequence of submissions to a new finder the count of
    every word is the sum of its counts on the submitted pages, as a
    64-bit integer (exactly the sum when the sum is in range), and the
    words of the histogram are those that occur on some page. *)
Theorem histogram_is_sum (calls : list submission) (seed host : string) (capacity : nat) :
  ∃ w', submit_all calls (mk_World (newWordFinder seed host capacity) []) = Some w' ∧
    (∀ k, index (wf_words (wf w')) k = wrap64 (total_count k (sub_wds <$> calls))) ∧
    (∀ k, in_int (total_count k (sub_wds <$> calls)) ->
          index (wf_words (wf w')) k = total_count k (sub_wds <$> calls)) ∧
    dom (wf_words (wf w')) = ⋃ (dom <$> (sub_wds <$> calls)) ∧
    (∀ k, is_Some (wf_words (wf w') !! k) <->
          ∃ c, c ∈ calls ∧ is_Some (sub_wds c !! k)).
Proof.
  destruct (submit_all_eq calls (mk_World (newWordFinder seed host capacity) []) eq_refl)
    as (w' & Hw' & _ & Hwords & _).
  exists w'. split; [exact Hw'|]. rewrite Hwords. simpl.
  assert (∀ k, index (foldl merge_words ∅ (sub_wds <$> calls)) k =
               wrap64 (total_count k (sub_wds <$> calls))) as Hidx.
  { intros k. rewrite index_foldl_merge_words.
    - unfold index at 1. by rewrite lookup_empty.
    - unfold index, in_int, min_int, max_int. rewrite lookup_empty. simpl. lia. }
  assert (dom (foldl merge_words ∅ (sub_wds <$> calls)) = ⋃ (dom <$> (sub_wds <$> calls)))
    as Hdom.
  { rewrite dom_foldl_merge_words, dom_empty_L. by rewrite union_empty_l_L. }
  split_and!.
  - exact Hidx.
  - intros k Hk. rewrite Hidx. by apply wrap64_in_int.
  - exact Hdom.
  - intros k. rewrite <- elem_of_dom, Hdom, elem_of_union_list. split.
    + intros (X & HX & Hk). apply list_elem_of_fmap in HX as (h & -> & Hh).
      apply list_elem_of_fmap in Hh as (c & -> & Hc).
      exists c. split; [done|]. by apply elem_of_dom.
    + intros (c & Hc & Hk). exists (dom (sub_wds c)). split.
      * apply list_elem_of_fmap. exists (sub_wds c). split; [done|].
        apply list_elem_of_fmap. eauto.
      * by apply elem_of_dom.
Qed.

(** ** More on runs of the crawl *)

Lemma delivered_snoc tr e :
  delivered (tr ++ [e]) = delivered tr ++ (if e is EvDeliver b then [b] else []).
Proof. unfold delivered. rewrite omap_app. by destruct e. Qed.

Section CrawlMore.
Variable fetch : bool -> string -> PageResult.
Variable concurrency : nat.

Local Abbreviation step := (step fetch concurrency).
Local Abbreviation exec := (exec fetch concurrency).

(** The steps of a run, one case per statement that can execute. *)
Lemma step_elim (P : System -> System -> Prop) (s : System) :
  (cancelled s = false ->
   P s (mk_System (world s) (tasks s) (busy s) true (ctl s) (cnt s) (visited s)
                  (trace s ++ [EvCancel]))) ->
  (∀ rec rest, buf (tasks s) = rec :: rest -> (length (busy s) < concurrency)%nat ->
   P s (mk_System (world s) (mk_chan rest (cap (tasks s))) (busy s ++ [rec])
                  (cancelled s) (ctl s) (cnt s) (visited s)
                  (trace s ++ [EvDequeue (url rec)]))) ->
  (∀ i rec w', busy s !! i = Some rec ->
   processLink fetch rec (cancelled s) (world s) = Some w' ->
   P s (mk_System w' (tasks s) (delete i (busy s)) (cancelled s) (ctl s) (cnt s)
                  (visited s)
                  (trace s ++ [EvSubmit (page_submission fetch (cancelled s) rec)]))) ->
  (∀ i b, spawned (world s) !! i = Some b ->
   (length (buf (wf_filter (wf (world s)))) < cap (wf_filter (wf (world s))))%nat ->
   P s (mk_System
          (mk_World (set_filter (mk_chan (buf (wf_filter (wf (world s))) ++ [b])
                                         (cap (wf_filter (wf (world s)))))
                                (wf (world s)))
                    (delete i (spawned (world s))))
          (tasks s) (busy s) (cancelled s) (ctl s) (cnt s) (visited s)
          (trace s ++ [EvDeliver b]))) ->
  (ctl s = CStart -> (length (buf (tasks s)) < cap (tasks s))%nat ->
   P s (mk_System (world s)
          (mk_chan (buf (tasks s) ++ [mk_SearchRecord (wf_startURL (wf (world s))) None])
                   (cap (tasks s)))
          (busy s) (cancelled s) CRecv 1 (visited s)
          (trace s ++ [EvEnqueue (wf_startURL (wf (world s)))]))) ->
  (∀ l rest, ctl s = CRecv -> buf (wf_filter (wf (world s))) = l :: rest ->
   wf_interrupt (wf (world s)) = true ->
   P s (mk_System (on_wf (set_filter (mk_chan rest (cap (wf_filter (wf (world s))))))
                         (world s))
          (tasks s) (busy s) (cancelled s)
          (if decide (wrap64 (cnt s - 1) > 0) then CRecv else CDone)
          (wrap64 (cnt s - 1)) (visited s)
          ((trace s ++ [EvConsume l]) ++ [EvIterated]))) ->
  (∀ l rest, ctl s = CRecv -> buf (wf_filter (wf (world s))) = l :: rest ->
   wf_interrupt (wf (world s)) = false ->
   P s (mk_System (on_wf (set_filter (mk_chan rest (cap (wf_filter (wf (world s))))))
                         (world s))
          (tasks s) (busy s) (cancelled s) (CLinks l) (cnt s) (visited s)
          (trace s ++ [EvConsume l]))) ->
  (ctl s = CLinks [] ->
   P s (mk_System (world s) (tasks s) (busy s) (cancelled s)
          (if decide (wrap64 (cnt s - 1) > 0) then CRecv else CDone)
          (wrap64 (cnt s - 1)) (visited s) (trace s ++ [EvIterated]))) ->
  (∀ x l, ctl s = CLinks (x :: l) -> default false (visited s !! x) = false ->
   P s (mk_System (world s) (tasks s) (busy s) (cancelled s) (CSelect x l)
          (wrap64 (cnt s + 1)) (<[x := true]> (visited s)) (trace s ++ [EvVisit x]))) ->
  (∀ x l, ctl s = CLinks (x :: l) -> default false (visited s !! x) ≠ false ->
   P s (mk_System (world s) (tasks s) (busy s) (cancelled s) (CLinks l) (cnt s)
          (visited s) (trace s))) ->
  (∀ x l, ctl s = CSelect x l -> cancelled s = true ->
   P s (mk_System (on_wf (set_interrupt true) (world s)) (tasks s) (busy s)
          (cancelled s) (CLinks l) (wrap64 (cnt s - 1)) (visited s)
          (trace s ++ [EvGiveUp x]))) ->
  (∀ x l, ctl s = CSelect x l -> (length (buf (tasks s)) < cap (tasks s))%nat ->
   P s (mk_System (world s)
          (mk_chan (buf (tasks s) ++ [mk_SearchRecord x None]) (cap (tasks s)))
          (busy s) (cancelled s) (CLinks l) (cnt s) (visited s)
          (trace s ++ [EvEnqueue x]))) ->
  ∀ a s', step a s = Some s' -> P s s'.
Proof.
  intros Hcancel Hrecv Hsubmit Hrelief Hstart Hdrop Hbatch Hend Hfresh Hseen Hdone Hsend
    a s' Hstep.
  destruct a; simpl in Hstep.
  - destruct (cancelled s) eqn:Hc; [done|]. injection Hstep as <-. by apply Hcancel.
  - case_decide; [|done]. unfold chan_recv in Hstep.
    destruct (buf (tasks s)) as [|rec rest] eqn:Hbuf; [done|].
    simpl in Hstep. injection Hstep as <-. by apply Hrecv.
  - destruct (busy s !! i) as [rec|] eqn:Hi; [|done]. simpl in Hstep.
    destruct (processLink fetch rec (cancelled s) (world s)) as [w'|] eqn:Hw; [|done].
    simpl in Hstep. injection Hstep as <-. by apply Hsubmit.
  - unfold relief_send, chan_send in Hstep.
    destruct (spawned (world s) !! i) as [b|] eqn:Hi; [|done]. simpl in Hstep.
    case_decide; [|done]. simpl in Hstep. injection Hstep as <-. by apply Hrelief.
  - unfold ctl_step in Hstep. destruct (ctl s) as [| |[|x l]|x l|] eqn:Hctl; try done.
    + unfold chan_send in Hstep. case_decide; [|done]. simpl in Hstep.
      injection Hstep as <-. by apply Hstart.
    + unfold chan_recv in Hstep.
      destruct (buf (wf_filter (wf (world s)))) as [|l rest] eqn:Hbuf; [done|].
      simpl in Hstep.
      destruct (wf_interrupt (wf (world s))) eqn:Hint; injection Hstep as <-.
      * unfold loop_next, log. simpl. by eapply Hdrop.
      * by eapply Hbatch.
    + injection Hstep as <-. unfold loop_next, log. simpl. by apply Hend.
    + case_decide; injection Hstep as <-; unfold log; simpl;
        [by eapply Hfresh|by eapply Hseen].
  - unfold ctl_step in Hstep. destruct (ctl s) as [| |[|y l]|x l|] eqn:Hctl; try done.
    destruct (cancelled s) eqn:Hc; [|done]. injection Hstep as <-.
    unfold log. simpl. by eapply Hdone.
  - unfold ctl_step in Hstep. destruct (ctl s) as [| |[|y l]|x l|] eqn:Hctl; try done.
    unfold chan_send in Hstep. case_decide; [|done]. simpl in Hstep.
    injection Hstep as <-. unfold log. simpl. by eapply Hsend.
Qed.

Lemma processLink_eq rec c w w' :
  processLink fetch rec c w = Some w' ->
  wf_mu (wf w) = false ∧
  addLinkData (sub_sr (page_submission fetch c rec)) (sub_wds (page_submission fetch c rec))
    (sub_links (page_submission fetch c rec)) w = Some w'.
Proof.
  unfold processLink. intros H. split; [|done].
  unfold addLinkData, lock in H. by destruct (wf_mu (wf w)).
Qed.


Lemma keeps_refl s : keeps s s.
Proof. unfold keeps. split_and!; done. Qed.

Lemma keeps_trans s1 s2 s3 : keeps s1 s2 -> keeps s2 s3 -> keeps s1 s3.
Proof.
  unfold keeps. intros (A1 & A2 & A3 & A4 & A5 & A6 & A7 & A8 & A9)
    (B1 & B2 & B3 & B4 & B5 & B6 & B7 & B8 & B9).
  split_and!; try (etrans; eassumption); auto; congruence.
Qed.

Lemma keeps_step a s s' : step a s = Some s' -> keeps s s'.
Proof.
  revert a s'. apply step_elim; unfold keeps; simpl;
    try solve [intros; split_and!;
               first [done|by apply prefix_app_r|by apply prefix_app_r, prefix_app_r]].
  - (* a worker submits *)
    intros i rec w' Hi [Hmu Hw]%processLink_eq.
    rewrite addLinkData_eq in Hw by done. injection Hw as <-. simpl.
    split_and!; try done.
    + by apply prefix_app_r.
    + rewrite dom_merge_words. apply union_subseteq_l.
    + destruct (pr_err _); simpl; [by apply prefix_app_r|done].
    + by case_bool_decide.
  - (* a fresh link is put into [visited] *)
    intros x l Hctl Hx. split_and!; try done; [by apply prefix_app_r|].
    intros u Hu. destruct (decide (x = u)) as [->|Hne].
    + by rewrite lookup_insert_eq.
    + by rewrite lookup_insert_ne.
Qed.

(** X4. Along every run, from any state: the trace is only extended; a
    URL put into [visited] stays there; the cancellation and the
    interrupt flag, once set, stay set; no word leaves the histogram;
    the error log is only extended; the capacities of the two channels
    and the start URL never change. *)
Theorem run_keeps (acts : list action) (s s' : System) :
  exec acts s = Some s' -> keeps s s'.
Proof.
  revert s. induction acts as [|a acts IH]; intros s Hexec; simpl in Hexec.
  - injection Hexec as <-. apply keeps_refl.
  - destruct (step a s) as [s1|] eqn:Hstep; [|done]. simpl in Hexec.
    eapply keeps_trans; [by eapply keeps_step|by apply IH].
Qed.

Lemma exec_invariant (I : System -> Prop) :
  (∀ a s s', I s -> step a s = Some s' -> I s') ->
  ∀ acts s s', I s -> exec acts s = Some s' -> I s'.
Proof.
  intros Hstep acts. induction acts as [|a acts IH]; intros s s' Hs Hexec; simpl in Hexec.
  - by injection Hexec as <-.
  - destruct (step a s) as [s1|] eqn:Hs1; [|done]. simpl in Hexec. eauto.
Qed.

Lemma within_bounds_step a s s' :
  within_bounds concurrency s -> step a s = Some s' -> within_bounds concurrency s'.
Proof.
  intros (Hbusy & Htasks & Hfilter). revert a s'.
  apply (step_elim (fun _ s' => within_bounds concurrency s')); unfold within_bounds; simpl;
    try solve [intros; rewrite ?length_app; simpl;
               repeat match goal with
                      | H : buf _ = _ :: _ |- _ => rewrite H in *; clear H
                      end; simpl in *; split_and!; lia].
  (* a worker submits *)
  intros i rec w' Hi [Hmu Hw]%processLink_eq.
  rewrite addLinkData_eq in Hw by done. injection Hw as <-. simpl.
  pose proof (length_delete (busy s) i (mk_is_Some _ _ Hi)).
  split_and!; [lia|done|].
  case_bool_decide; simpl; rewrite ?length_app; simpl; lia.
Qed.

(** X5. In every state of a run at most [concurrency] records are being
    processed by workers, and neither the task channel nor the filter
    channel holds more than its capacity. *)
Theorem run_within_bounds (seed host : string) (capacity : nat)
    (acts : list action) (s : System) :
  exec acts (init seed host capacity) = Some s ->
  (length (busy s) <= concurrency)%nat ∧
  (length (buf (tasks s)) <= capacity)%nat ∧
  (length (buf (wf_filter (wf (world s)))) <= capacity)%nat.
Proof.
  intros Hexec.
  assert (within_bounds concurrency s) as (Hb & Ht & Hf).
  { eapply (exec_invariant (within_bounds concurrency)); [|shelve|exact Hexec].
    intros a s1 s2. apply within_bounds_step.
    Unshelve. unfold within_bounds. simpl. lia. }
  assert (cap (tasks s) = capacity ∧ cap (wf_filter (wf (world s))) = capacity)
    as [Hct Hcf].
  { eapply (exec_invariant
              (fun s => cap (tasks s) = capacity ∧
                        cap (wf_filter (wf (world s))) = capacity));
      [|shelve|exact Hexec].
    intros a s1 s2 [H1 H2] Hstep.
    destruct (keeps_step a s1 s2 Hstep) as (_ & _ & _ & _ & _ & _ & Hct & Hcf & _).
    split; congruence.
    Unshelve. done. }
  rewrite Hct in Ht. rewrite Hcf in Hf. done.
Qed.
End CrawlMore.

(** Splits the statements on all the elements of appended lists. *)
Ltac forall_split :=
  simpl in *;
  repeat match goal with
         | H : Forall _ (_ :: _) |- _ => apply Forall_cons in H as [? ?]
         | H : Forall _ (_ ++ _) |- _ => apply Forall_app in H as [? ?]
         end;
  repeat first [apply Forall_nil_2|apply Forall_cons_2|apply Forall_app_2|split];
  auto.

Section CrawlReach.
Variable fetch : bool -> string -> PageResult.
Variable concurrency : nat.
Variable seed : string.
Variable links : string -> list string.

Local Abbreviation step := (step fetch concurrency).
Local Abbreviation exec := (exec fetch concurrency).
Local Abbreviation reachable := (link_reachable links seed).

Lemma reachable_links c u :
  (∀ x, x ∈ pr_links (fetch c u) -> x ∈ links u) ->
  reachable u -> Forall reachable (pr_links (fetch c u)).
Proof.
  intros Hlinks Hu. apply Forall_forall. intros x Hx.
  apply (reach_link _ _ u x Hu). by apply Hlinks.
Qed.

Lemma urls_reachable_step a s s' :
  (∀ u x, x ∈ pr_links (fetch (cancelled s) u) -> x ∈ links u) ->
  wf_startURL (wf (world s)) = seed ∧ Forall reachable (urls_of s) ->
  step a s = Some s' ->
  wf_startURL (wf (world s')) = seed ∧ Forall reachable (urls_of s').
Proof.
  intros Hsub_links [Hseed Hall] Hstep.
  split; [by destruct (keeps_step fetch concurrency a s s' Hstep) as (_&_&_&_&_&_&_&_& ->)|].
  revert a s' Hstep.
  unfold urls_of in Hall. rewrite !Forall_app in Hall.
  destruct Hall as (Htasks & Hbusy & Hsp & Hfil & Hctl & Henq & Hsub).
  apply (step_elim fetch concurrency (fun _ s' => Forall reachable (urls_of s')));
    unfold urls_of; simpl.
  - intros _. trace_snoc. rewrite !Forall_app. done.
  - intros rec rest Hbuf _. trace_snoc. rewrite Hbuf in Htasks.
    apply Forall_cons in Htasks as [Hrec Hrest].
    rewrite fmap_app, !Forall_app. split_and!; try done. by apply Forall_singleton.
  - intros i rec w' Hi [Hmu Hw]%processLink_eq.
    rewrite addLinkData_eq in Hw by done. injection Hw as <-. simpl. trace_snoc.
    assert (reachable (url rec)) as Hrec.
    { rewrite Forall_fmap, Forall_lookup in Hbusy. by apply (Hbusy i rec). }
    pose proof (reachable_links (cancelled s) (url rec) (Hsub_links (url rec)) Hrec)
      as Hlinks.
    rewrite fmap_app, !Forall_app. simpl. split_and!; try done.
    + rewrite Forall_fmap in Hbusy |- *. by apply Forall_delete.
    + case_bool_decide; [done|]. rewrite concat_app, Forall_app. simpl.
      by rewrite app_nil_r.
    + case_bool_decide; simpl; [|done]. rewrite concat_app, Forall_app. simpl.
      by rewrite app_nil_r.
    + by apply Forall_singleton.
  - intros i b Hi _. trace_snoc.
    assert (Forall reachable b) as Hb.
    { apply Forall_concat in Hsp. rewrite Forall_lookup in Hsp. by apply (Hsp i b). }
    rewrite !Forall_app. split_and!; try done.
    + apply Forall_concat, Forall_delete. by apply Forall_concat.
    + rewrite concat_app, Forall_app. simpl. by rewrite app_nil_r.
  - intros _ _. trace_snoc. rewrite Hseed.
    rewrite fmap_app, !Forall_app. simpl.
    split_and!; try done; apply Forall_singleton; apply reach_seed.
  - intros l rest _ Hbuf _. rewrite Hbuf in Hfil.
    rewrite !enqueued_snoc, !submitted_snoc. simpl. rewrite !app_nil_r.
    case_decide; forall_split.
  - intros l rest _ Hbuf _. rewrite Hbuf in Hfil. trace_snoc. forall_split.
  - intros _. trace_snoc. case_decide; forall_split.
  - intros x l Hc _. rewrite Hc in Hctl. trace_snoc. forall_split.
  - intros x l Hc _. rewrite Hc in Hctl. forall_split.
  - intros x l Hc _. rewrite Hc in Hctl. trace_snoc. forall_split.
  - intros x l Hc _. rewrite Hc in Hctl. trace_snoc. rewrite fmap_app. forall_split.
Qed.

End CrawlReach.

Section CrawlSound.
Variable fetch : bool -> string -> PageResult.
Variable concurrency : nat.
Variable seed : string.

Local Abbreviation step := (step fetch concurrency).
Local Abbreviation exec := (exec fetch concurrency).

(** X6. Every URL that a run sends into [tasks], and so every page that
    is fetched, can be reached from the start URL by following links of
    fetched pages. *)
Theorem crawl_sound (host : string) (capacity : nat) (acts : list action) (s : System) :
  exec acts (init seed host capacity) = Some s ->
  (∀ u, u ∈ enqueued (trace s) -> link_reachable (any_links fetch) seed u) ∧
  (∀ c, c ∈ submitted (trace s) -> link_reachable (any_links fetch) seed (sub_url c)).
Proof.
  intros Hexec.
  assert (wf_startURL (wf (world s)) = seed ∧
          Forall (link_reachable (any_links fetch) seed) (urls_of s)) as [_ Hall].
  { eapply (exec_invariant fetch concurrency
              (fun s => wf_startURL (wf (world s)) = seed ∧
                        Forall (link_reachable (any_links fetch) seed) (urls_of s)));
      [|shelve|exact Hexec].
    intros a s1 s2. apply urls_reachable_step.
    intros u x Hx. unfold any_links. apply elem_of_app. destruct (cancelled s1); auto.
    Unshelve. split; [done|]. unfold urls_of. simpl. constructor. }
  unfold urls_of in Hall. rewrite !Forall_app, !Forall_forall in Hall.
  destruct Hall as (_ & _ & _ & _ & _ & Henq & Hsub).
  split; [exact Henq|].
  intros c Hc. apply Hsub, list_elem_of_fmap. eauto.
Qed.

(** In a run that is not cancelled all pages are fetched under a live
    context, and only their links are followed. *)
Lemma live_reachable (host : string) (capacity : nat) (acts : list action) (s : System) :
  exec acts (init seed host capacity) = Some s ->
  cancelled s = false ->
  Forall (link_reachable (live_links fetch) seed) (urls_of s).
Proof.
  intros Hexec.
  assert (cancelled s = false ->
          wf_startURL (wf (world s)) = seed ∧
          Forall (link_reachable (live_links fetch) seed) (urls_of s)) as H;
    [|intros Hc; by destruct (H Hc)].
  eapply (exec_invariant fetch concurrency
            (fun s => cancelled s = false ->
                      wf_startURL (wf (world s)) = seed ∧
                      Forall (link_reachable (live_links fetch) seed) (urls_of s)));
    [| |exact Hexec].
  - intros a s1 s2 IH Hstep Hc2.
    assert (cancelled s1 = false) as Hc1.
    { destruct (cancelled s1) eqn:Hc; [|done].
      destruct (keeps_step fetch concurrency a s1 s2 Hstep) as (_ & _ & Hk & _).
      rewrite Hk in Hc2; done. }
    eapply urls_reachable_step; [|by apply IH|exact Hstep].
    intros u x. by rewrite Hc1.
  - intros _. split; [done|]. unfold urls_of. simpl. constructor.
Qed.
End CrawlSound.


Ltac trace_snoc2 :=
  rewrite ?enqueued_snoc, ?visits_snoc, ?consumed_snoc, ?submitted_snoc,
    ?given_up_snoc, ?iterated_snoc, ?delivered_snoc; simpl;
  rewrite ?app_nil_r.

Section CrawlGraph.
Variable fetch : bool -> string -> PageResult.
Variable concurrency : nat.
Variable U : list string.
Variable seed : string.
Variable capacity : nat.

Hypothesis closed : graph_closed fetch U = true.
Hypothesis seed_in_U : seed ∈ U.
Hypothesis fits_int : Z.of_nat (length U) + 3 <= max_int.

Local Abbreviation inv := (inv U seed capacity).
Local Abbreviation step := (step fetch concurrency).
Local Abbreviation exec := (exec fetch concurrency).

Lemma run_inv host acts s : exec acts (init seed host capacity) = Some s -> inv s.
Proof.
  intros Hexec.
  eapply exec_inv; [exact closed|exact seed_in_U|exact fits_int|apply inv_init|exact Hexec].
Qed.

(** Invariants that hold together with [inv]. *)
Lemma run_invariant (I : System -> Prop) host :
  I (init seed host capacity) ->
  (∀ a s s', inv s -> I s -> step a s = Some s' -> I s') ->
  ∀ acts s, exec acts (init seed host capacity) = Some s -> I s.
Proof.
  intros Hinit Hstep acts s Hexec.
  assert (inv s ∧ I s) as [_ ?]; [|done].
  eapply (exec_invariant fetch concurrency (fun s => inv s ∧ I s)); [| |exact Hexec].
  - intros a s1 s2 [Hinv HI] Hs. split; [|by eapply Hstep].
    eapply step_inv; [exact closed|exact seed_in_U|exact fits_int|exact Hinv|exact Hs].
  - split; [apply inv_init|done].
Qed.

Lemma submitted_bound s :
  inv s -> Z.of_nat (length (submitted (trace s))) + 2 <= max_int.
Proof.
  intros Hinv.
  destruct (inv_bound U seed capacity s Hinv) as [_ Hb].
  pose proof (inv_tasks _ _ _ _ Hinv) as Ht. apply Permutation_length in Ht.
  rewrite !length_app, !length_fmap in Ht. lia.
Qed.

Lemma stats_count_step a s s' :
  inv s -> stats_count s -> step a s = Some s' -> stats_count s'.
Proof.
  intros Hinv (Hfree & Hblocked & Hsum). pose proof (submitted_bound s Hinv) as Hb.
  revert a s'.
  apply (step_elim fetch concurrency (fun _ s' => stats_count s'));
    unfold stats_count, getRunStats in *; simpl;
    try solve [intros; trace_snoc2; split_and!; done].
  - (* a worker submits *)
    intros i rec w' Hi [Hmu Hw]%processLink_eq.
    rewrite addLinkData_eq in Hw by done. injection Hw as <-. simpl.
    trace_snoc2. rewrite !length_app. simpl.
    assert (∀ z, 0 <= z <= Z.of_nat (length (submitted (trace s))) -> wrap64 (z + 1) = z + 1)
      as Hwrap.
    { intros z Hz. apply wrap64_in_int. unfold in_int, min_int, max_int in *. lia. }
    case_bool_decide; simpl; rewrite ?length_app; simpl; rewrite Hwrap by lia;
      split_and!; lia.
  - (* a spawned goroutine sends *)
    intros i b Hi Hroom. trace_snoc2. rewrite !length_app. simpl.
    pose proof (length_delete (spawned (world s)) i (mk_is_Some _ _ Hi)).
    pose proof (lookup_lt_Some _ _ _ Hi). split_and!; lia.
Qed.

(** X7. In every state of a run on a finite link graph the two counters
    returned by [getRunStats] add up to the number of calls of
    [addLinkData] so far, and [chanBlocked] is the number of goroutines
    that were spawned for a blocked send: those that have delivered their
    batch and those still waiting. *)
Theorem run_stats_count (host : string) (acts : list action) (s : System) :
  exec acts (init seed host capacity) = Some s ->
  0 <= chanFree (getRunStats (wf (world s))) ∧
  chanBlocked (getRunStats (wf (world s))) =
    Z.of_nat (length (delivered (trace s)) + length (spawned (world s))) ∧
  chanFree (getRunStats (wf (world s))) + chanBlocked (getRunStats (wf (world s))) =
    Z.of_nat (length (submitted (trace s))).
Proof.
  intros Hexec. apply (run_invariant stats_count host) with (acts := acts); [| |done].
  - unfold stats_count. simpl. lia.
  - intros a s1 s2. apply stats_count_step.
Qed.

Lemma links_accounted_step a s s' :
  inv s -> links_accounted s -> step a s = Some s' -> links_accounted s'.
Proof.
  intros Hinv HK. revert a s'.
  apply (step_elim fetch concurrency (fun _ s' => links_accounted s'));
    unfold links_accounted in *; simpl.
  - intros _ Hint. trace_snoc. by apply HK.
  - intros rec rest _ _ Hint. trace_snoc. by apply HK.
  - intros i rec w' Hi [Hmu Hw]%processLink_eq.
    rewrite addLinkData_eq in Hw by done. injection Hw as <-. simpl.
    intros Hint. trace_snoc. by apply HK.
  - intros i b _ _ Hint. trace_snoc. by apply HK.
  - intros Hctl _ Hint. trace_snoc. destruct (HK Hint) as [Hg Hall]. split; [done|].
    rewrite Hctl in Hall. exact Hall.
  - intros l rest _ _ Hint. by rewrite Hint.
  - intros l rest Hctl _ Hint _. trace_snoc. destruct (HK Hint) as [Hg Hall].
    split; [done|]. rewrite Hctl in Hall. simpl in Hall. apply Forall_app. split.
    + eapply Forall_impl; [exact Hall|]. intros b Hb.
      eapply Forall_impl; [exact Hb|]. simpl. intros x [Hx|Hx]; [by left|].
      by apply elem_of_nil in Hx.
    + apply Forall_singleton, Forall_forall. auto.
  - intros Hctl Hint. trace_snoc. destruct (HK Hint) as [Hg Hall]. split; [done|].
    rewrite Hctl in Hall. simpl in Hall.
    eapply Forall_impl; [exact Hall|]. intros b Hb.
    eapply Forall_impl; [exact Hb|]. simpl. intros x [Hx|Hx]; [by left|].
    by apply elem_of_nil in Hx.
  - intros x l Hctl Hx Hint. trace_snoc. destruct (HK Hint) as [Hg Hall].
    split; [done|]. rewrite Hctl in Hall. simpl in Hall.
    eapply Forall_impl; [exact Hall|]. intros b Hb.
    eapply Forall_impl; [exact Hb|]. simpl. intros y [Hy|Hy]; [left|by right].
    destruct (decide (x = y)) as [->|Hne].
    + by rewrite lookup_insert_eq.
    + by rewrite lookup_insert_ne.
  - intros x l Hctl Hx Hint. destruct (HK Hint) as [Hg Hall]. split; [done|].
    rewrite Hctl in Hall. simpl in Hall.
    eapply Forall_impl; [exact Hall|]. intros b Hb.
    eapply Forall_impl; [exact Hb|]. simpl.
    intros y [Hy|[->|Hy]%elem_of_cons]; [by left| |by right].
    left. destruct (visited s !! x) as [v|] eqn:Hv; [|done].
    by rewrite (inv_visited_true _ _ _ _ Hinv x v Hv).
  - intros x l _ _ Hint. done.
  - intros x l Hctl _ Hint. trace_snoc. destruct (HK Hint) as [Hg Hall].
    split; [done|]. rewrite Hctl in Hall. simpl in Hall.
    eapply Forall_impl; [exact Hall|]. intros b Hb.
    eapply Forall_impl; [exact Hb|]. simpl.
    intros y [Hy|[->|Hy]%elem_of_cons]; [by left| |by right].
    left. apply (inv_visited _ _ _ _ Hinv).
    pose proof (inv_select _ _ _ _ Hinv) as Hsel. rewrite Hctl in Hsel. simpl in Hsel.
    by rewrite Forall_singleton in Hsel.
Qed.

Lemma fetched_live_step a s s' :
  fetched_live fetch s -> step a s = Some s' -> fetched_live fetch s'.
Proof.
  intros HF. revert a s'.
  apply (step_elim fetch concurrency (fun _ s' => fetched_live fetch s'));
    unfold fetched_live in *; simpl;
    try solve [intros; trace_snoc; auto].
  intros i rec w' _ _ Hc. trace_snoc. apply Forall_app. split; [by apply HF|].
  apply Forall_singleton. by rewrite Hc.
Qed.

Lemma links_received_step a s s' :
  links_received s -> step a s = Some s' -> links_received s'.
Proof.
  intros HV. revert a s'.
  apply (step_elim fetch concurrency (fun _ s' => links_received s'));
    unfold links_received in *; simpl;
    try solve [intros; trace_snoc; auto].
  - intros Hctl _. trace_snoc. rewrite Hctl in HV. simpl in HV.
    by rewrite app_nil_r in HV.
  - intros l rest Hctl _ _. trace_snoc. rewrite Hctl in HV. simpl in HV.
    assert (ctl_links (if decide (wrap64 (cnt s - 1) > 0) then CRecv else CDone) = [])
      as -> by (by case_decide).
    rewrite app_nil_r in *.
    eapply Forall_impl; [exact HV|]. simpl. intros x (b & Hb & Hx).
    exists b. split; [|done]. apply elem_of_app. by left.
  - intros l rest Hctl _ _. trace_snoc. rewrite Hctl in HV. simpl in HV.
    rewrite app_nil_r in HV. apply Forall_app. split.
    + eapply Forall_impl; [exact HV|]. simpl. intros x (b & Hb & Hx).
      exists b. split; [|done]. apply elem_of_app. by left.
    + apply Forall_forall. intros x Hx. exists l. split; [|done].
      apply elem_of_app. right. by apply list_elem_of_singleton.
  - intros Hctl. trace_snoc. rewrite Hctl in HV. simpl in HV.
    by case_decide.
  - intros x l Hctl _. trace_snoc. rewrite Hctl in HV. simpl in HV.
    apply Forall_app in HV as [Hv Hl]. pose proof Hl as [Hx _]%Forall_cons.
    apply Forall_app. split; [apply Forall_app; split|]; [done| |exact Hl].
    by apply Forall_singleton.
  - intros x l Hctl _. rewrite Hctl in HV. simpl in HV.
    apply Forall_app in HV as [Hv Hl]. apply Forall_cons in Hl as [_ Hl].
    by apply Forall_app.
  - intros x l Hctl _. trace_snoc. rewrite Hctl in HV. simpl in HV.
    apply Forall_app in HV as [Hv Hl]. apply Forall_cons in Hl as [_ Hl].
    by apply Forall_app.
  - intros x l Hctl _. trace_snoc. rewrite Hctl in HV. simpl in HV.
    apply Forall_app in HV as [Hv Hl]. apply Forall_cons in Hl as [_ Hl].
    by apply Forall_app.
Qed.

Lemma run_links_accounted host acts s :
  exec acts (init seed host capacity) = Some s -> links_accounted s.
Proof.
  apply (run_invariant links_accounted host).
  - intros _. split; [done|]. simpl. constructor.
  - intros a s1 s2. apply links_accounted_step.
Qed.

Lemma run_fetched_live host acts s :
  exec acts (init seed host capacity) = Some s -> fetched_live fetch s.
Proof.
  apply (run_invariant (fetched_live fetch) host).
  - intros _. simpl. constructor.
  - intros a s1 s2 _. apply fetched_live_step.
Qed.

Lemma run_links_received host acts s :
  exec acts (init seed host capacity) = Some s -> links_received s.
Proof.
  apply (run_invariant links_received host).
  - unfold links_received. simpl. constructor.
  - intros a s1 s2 _. apply links_received_step.
Qed.

(** What is left when [run] has left its loop. *)
Lemma exit_idle s :
  inv s -> ctl s = CDone ->
  buf (tasks s) = [] ∧ busy s = [] ∧ spawned (world s) = [] ∧
  buf (wf_filter (wf (world s))) = [].
Proof.
  intros Hinv Hctl. pose proof (inv_idle _ _ _ _ Hinv (or_intror Hctl)) as Hp.
  unfold pending in Hp.
  destruct (buf (tasks s)), (busy s), (spawned (world s)),
    (buf (wf_filter (wf (world s)))); simpl in Hp; done || lia.
Qed.

(** X8. When [run] leaves its loop, nothing is in flight: both channels
    are empty, no worker holds a record, no goroutine waits to send into
    [filter], so that closing the two channels cannot meet a sender, and
    the only step left is a cancellation from outside.  Every record
    sent into [tasks] was fetched and reported by one call of
    [addLinkData], and every batch of links was received by [run]. *)
Theorem run_exit_quiescent (host : string) (acts : list action) (s : System) :
  exec acts (init seed host capacity) = Some s ->
  ctl s = CDone ->
  (buf (tasks s) = [] ∧ busy s = [] ∧ spawned (world s) = [] ∧
   buf (wf_filter (wf (world s))) = []) ∧
  cnt s = 0 ∧
  (∀ a s', step a s = Some s' -> a = ACancel) ∧
  enqueued (trace s) ≡ₚ sub_url <$> submitted (trace s) ∧
  sub_links <$> submitted (trace s) ≡ₚ consumed (trace s) ∧
  length (iterated (trace s)) = length (submitted (trace s)).
Proof.
  intros Hexec Hctl. pose proof (run_inv host acts s Hexec) as Hinv.
  destruct (exit_idle s Hinv Hctl) as (Ht & Hb & Hs & Hf).
  pose proof (inv_tasks _ _ _ _ Hinv) as Htasks. rewrite Ht, Hb in Htasks.
  pose proof (inv_batches _ _ _ _ Hinv) as Hbatches. rewrite Hs, Hf in Hbatches.
  simpl in Htasks, Hbatches.
  split_and!; try done.
  - rewrite (inv_cnt _ _ _ _ Hinv), (inv_idle _ _ _ _ Hinv (or_intror Hctl)), Hctl. done.
  - intros a s' Hstep. destruct a; simpl in Hstep; try done.
    + case_decide; [|done]. unfold chan_recv in Hstep. by rewrite Ht in Hstep.
    + by rewrite Hb in Hstep.
    + unfold relief_send in Hstep. by rewrite Hs in Hstep.
    + unfold ctl_step in Hstep. by rewrite Hctl in Hstep.
    + unfold ctl_step in Hstep. by rewrite Hctl in Hstep.
    + unfold ctl_step in Hstep. by rewrite Hctl in Hstep.
  - pose proof (inv_iter _ _ _ _ Hinv) as Hiter. rewrite Hctl in Hiter. simpl in Hiter.
    apply Permutation_length in Hbatches. rewrite length_fmap in Hbatches. lia.
Qed.

Lemma fetched_reachable (host : string) (acts : list action) (s : System) :
  exec acts (init seed host capacity) = Some s ->
  cancelled s = false ->
  ∀ u, u ∈ (sub_url <$> submitted (trace s)) -> link_reachable (live_links fetch) seed u.
Proof.
  intros Hexec Hc u Hu.
  pose proof (live_reachable fetch concurrency seed host capacity acts s Hexec Hc) as Hr.
  unfold urls_of in Hr. rewrite !Forall_app in Hr.
  destruct Hr as (_ & _ & _ & _ & _ & _ & Hr).
  rewrite Forall_forall in Hr. by apply Hr.
Qed.

Lemma reachable_fetched (host : string) (acts : list action) (s : System) :
  exec acts (init seed host capacity) = Some s ->
  ctl s = CDone ->
  cancelled s = false ->
  ∀ u, link_reachable (live_links fetch) seed u -> u ∈ (sub_url <$> submitted (trace s)).
Proof.
  intros Hexec Hctl Hc u. pose proof (run_inv host acts s Hexec) as Hinv.
  destruct (exit_idle s Hinv Hctl) as (Ht & Hb & Hs & Hf).
  pose proof (inv_tasks _ _ _ _ Hinv) as Htasks. rewrite Ht, Hb in Htasks.
  pose proof (inv_batches _ _ _ _ Hinv) as Hbatches. rewrite Hs, Hf in Hbatches.
  simpl in Htasks, Hbatches.
  pose proof (inv_dedup _ _ _ _ Hinv) as Hdedup. rewrite Hctl in Hdedup.
  simpl in Hdedup. rewrite app_nil_r in Hdedup.
  assert (wf_interrupt (wf (world s)) = false) as Hint.
  { destruct (wf_interrupt (wf (world s))) eqn:Hi; [|done].
    by rewrite (inv_interrupt _ _ _ _ Hinv Hi) in Hc. }
  destruct (run_links_accounted host acts s Hexec Hint) as [Hgiven Hall].
  rewrite Hgiven, app_nil_r in Hdedup.
  pose proof (run_fetched_live host acts s Hexec Hc) as Hlive.
  induction 1 as [|v x Hv IH Hx].
  - rewrite <- Htasks, Hdedup. apply elem_of_cons. by left.
  - apply list_elem_of_fmap in IH as (c & -> & Hin).
    rewrite Forall_forall in Hlive.
    pose proof (f_equal sub_links (Hlive c Hin)) as Hlinks.
    change (sub_links (live_page fetch (sub_url c)))
      with (live_links fetch (sub_url c)) in Hlinks.
    assert (sub_links c ∈ consumed (trace s)) as Hbatch.
    { rewrite <- Hbatches. apply list_elem_of_fmap. eauto. }
    rewrite Forall_forall in Hall. pose proof (Hall _ Hbatch) as Hacc.
    rewrite Forall_forall in Hacc. rewrite <- Hlinks in Hx.
    destruct (Hacc x Hx) as [Hvis|Hnil].
    + rewrite <- Htasks, Hdedup. apply elem_of_cons. right.
      by apply (inv_visited _ _ _ _ Hinv).
    + rewrite Hctl in Hnil. by apply elem_of_nil in Hnil.
Qed.

(** X9. A run that has left its loop without a cancellation has fetched
    exactly the pages that can be reached from the start URL by
    following the links that the pages give. *)
Theorem crawl_complete (host : string) (acts : list action) (s : System) :
  exec acts (init seed host capacity) = Some s ->
  ctl s = CDone ->
  cancelled s = false ->
  ∀ u, u ∈ (sub_url <$> submitted (trace s)) <->
       link_reachable (live_links fetch) seed u.
Proof.
  intros Hexec Hctl Hc u. split.
  - by apply (fetched_reachable host acts s).
  - by apply (reachable_fetched host acts s).
Qed.

Lemma total_count_perm k (l l' : list (gmap string Z)) :
  l ≡ₚ l' -> total_count k l = total_count k l'.
Proof. induction 1; simpl; lia. Qed.

(** X10. The result of a run that has left its loop without a
    cancellation: [addLinkData] was called once for the start URL and
    once more for every page that some reachable page links to, each
    time with the page as fetched under a live context; and the count of
    every word in the histogram is the sum, as a 64-bit integer, of its
    counts on these pages.  A start page that is linked from the site
    is therefore counted twice. *)
Theorem crawl_result (host : string) (acts : list action) (s : System) :
  exec acts (init seed host capacity) = Some s ->
  ctl s = CDone ->
  cancelled s = false ->
  ∃ linked : list string,
    NoDup linked ∧
    (∀ x, x ∈ linked <->
          ∃ u, link_reachable (live_links fetch) seed u ∧ x ∈ live_links fetch u) ∧
    submitted (trace s) ≡ₚ live_page fetch <$> (seed :: linked) ∧
    (∀ k, index (wf_words (wf (world s))) k =
          wrap64 (total_count k ((fun u => pr_words (fetch false u)) <$> (seed :: linked)))).
Proof.
  intros Hexec Hctl Hc. pose proof (run_inv host acts s Hexec) as Hinv.
  assert (∀ u, u ∈ (sub_url <$> submitted (trace s)) <->
               link_reachable (live_links fetch) seed u) as Hcomplete.
  { intros u. split.
    - by apply (fetched_reachable host acts s).
    - by apply (reachable_fetched host acts s). }
  destruct (exit_idle s Hinv Hctl) as (Ht & Hb & Hs & Hf).
  pose proof (inv_tasks _ _ _ _ Hinv) as Htasks. rewrite Ht, Hb in Htasks.
  pose proof (inv_batches _ _ _ _ Hinv) as Hbatches. rewrite Hs, Hf in Hbatches.
  simpl in Htasks, Hbatches.
  pose proof (inv_dedup _ _ _ _ Hinv) as Hdedup. rewrite Hctl in Hdedup.
  simpl in Hdedup. rewrite app_nil_r in Hdedup.
  assert (wf_interrupt (wf (world s)) = false) as Hint.
  { destruct (wf_interrupt (wf (world s))) eqn:Hi; [|done].
    by rewrite (inv_interrupt _ _ _ _ Hinv Hi) in Hc. }
  destruct (run_links_accounted host acts s Hexec Hint) as [Hgiven Hall].
  rewrite Hgiven, app_nil_r in Hdedup.
  pose proof (run_fetched_live host acts s Hexec Hc) as Hlive.
  pose proof (run_links_received host acts s Hexec) as Hrecv.
  unfold links_received in Hrecv. rewrite Hctl in Hrecv. simpl in Hrecv.
  rewrite app_nil_r in Hrecv.
  rewrite Forall_forall in Hlive. rewrite Forall_forall in Hall.
  rewrite Forall_forall in Hrecv.
  assert (submitted (trace s) ≡ₚ live_page fetch <$> seed :: visits (trace s)) as Hsub.
  { assert (submitted (trace s) = live_page fetch <$> (sub_url <$> submitted (trace s)))
      as Heq.
    { rewrite <- list_fmap_compose.
      rewrite <- (list_fmap_id (submitted (trace s))) at 1.
      apply list_fmap_ext. intros i c Hi. simpl.
      apply Hlive. by eapply list_elem_of_lookup_2. }
    rewrite Heq, <- Htasks, Hdedup. done. }
  exists (visits (trace s)). split_and!.
  - exact (inv_visits_NoDup _ _ _ _ Hinv).
  - intros x. split.
    + intros (b & Hb' & Hx)%Hrecv.
      rewrite <- Hbatches in Hb'. apply list_elem_of_fmap in Hb' as (c & -> & Hin).
      exists (sub_url c). split.
      * apply Hcomplete, list_elem_of_fmap. eauto.
      * pose proof (f_equal sub_links (Hlive c Hin)) as Hlinks.
        change (sub_links (live_page fetch (sub_url c)))
          with (live_links fetch (sub_url c)) in Hlinks.
        by rewrite <- Hlinks.
    + intros (u & Hu & Hx). apply Hcomplete in Hu.
      apply list_elem_of_fmap in Hu as (c & -> & Hin).
      pose proof (f_equal sub_links (Hlive c Hin)) as Hlinks.
      change (sub_links (live_page fetch (sub_url c)))
        with (live_links fetch (sub_url c)) in Hlinks.
      rewrite <- Hlinks in Hx.
      assert (sub_links c ∈ consumed (trace s)) as Hbatch.
      { rewrite <- Hbatches. apply list_elem_of_fmap. eauto. }
      pose proof (Hall _ Hbatch) as Hacc. rewrite Forall_forall in Hacc.
      destruct (Hacc x Hx) as [Hvis|Hnil].
      * by apply (inv_visited _ _ _ _ Hinv).
      * rewrite Hctl in Hnil. by apply elem_of_nil in Hnil.
  - exact Hsub.
  - intros k. rewrite (inv_words _ _ _ _ Hinv), index_foldl_merge_words by done.
    change (index ∅ k) with 0. rewrite Z.add_0_l. f_equal.
    rewrite (total_count_perm k _ (sub_wds <$> (live_page fetch <$> seed :: visits (trace s))))
      by (by rewrite Hsub).
    by rewrite <- list_fmap_compose.
Qed.

(** X11. The error log of a run that has left its loop without a
    cancellation: [getErrors] is nil exactly when no reachable page
    fails to fetch, and otherwise its records are those of the
    reachable pages that fail, each with the error of its fetch. *)
Theorem crawl_errors (host : string) (acts : list action) (s : System) :
  exec acts (init seed host capacity) = Some s ->
  ctl s = CDone ->
  cancelled s = false ->
  (is_nil (getErrors (wf (world s))) = true <->
   ∀ u, link_reachable (live_links fetch) seed u -> pr_err (fetch false u) = None) ∧
  (∀ r, r ∈ elems (getErrors (wf (world s))) <->
        ∃ u e, link_reachable (live_links fetch) seed u ∧
               pr_err (fetch false u) = Some e ∧ r = mk_SearchRecord u (Some e)).
Proof.
  intros Hexec Hctl Hc. pose proof (run_inv host acts s Hexec) as Hinv.
  assert (∀ u, u ∈ (sub_url <$> submitted (trace s)) <->
               link_reachable (live_links fetch) seed u) as Hcomplete.
  { intros u. split.
    - by apply (fetched_reachable host acts s).
    - by apply (reachable_fetched host acts s). }
  pose proof (run_fetched_live host acts s Hexec Hc) as Hlive.
  rewrite Forall_forall in Hlive.
  assert (∀ c, c ∈ submitted (trace s) ->
               sub_sr c = mk_SearchRecord (sub_url c) (pr_err (fetch false (sub_url c))))
    as Hsr.
  { intros c Hin. pose proof (f_equal sub_sr (Hlive c Hin)) as H. exact H. }
  unfold getErrors. rewrite (inv_errRecs _ _ _ _ Hinv).
  destruct (errRecs_fold (submitted (trace s)) nil_slice) as [Hel Hnil].
  change (foldl _ nil_slice (submitted (trace s))) with (errors_of (submitted (trace s)))
    in Hel, Hnil.
  simpl in Hel, Hnil. rewrite Hel, Hnil. clear Hel Hnil. split.
  - rewrite forallb_forall. split.
    + intros Hall u Hu. apply Hcomplete in Hu.
      apply list_elem_of_fmap in Hu as (c & -> & Hin).
      pose proof (Hall c (proj1 (list_elem_of_In _ _) Hin)) as Hno.
      rewrite (Hsr c Hin) in Hno.
      unfold has_err in Hno. simpl in Hno. by destruct (pr_err _).
    + intros Hall c Hin%list_elem_of_In. rewrite (Hsr c Hin). unfold has_err. simpl.
      rewrite Hall; [done|]. apply Hcomplete, list_elem_of_fmap. eauto.
  - intros r. rewrite list_elem_of_filter, list_elem_of_fmap. split.
    + intros [Hr (c & -> & Hin)]. rewrite (Hsr c Hin) in Hr |- *.
      unfold has_err in Hr. simpl in Hr.
      destruct (pr_err (fetch false (sub_url c))) as [e|] eqn:He; [|done].
      exists (sub_url c), e. split_and!; [|done|done].
      apply Hcomplete, list_elem_of_fmap. eauto.
    + intros (u & e & Hu & He & ->). split; [done|].
      apply Hcomplete in Hu. apply list_elem_of_fmap in Hu as (c & -> & Hin).
      exists c. split; [|done]. by rewrite (Hsr c Hin), He.
Qed.

Lemma filter_eq_NoDup (u : string) (l : list string) :
  NoDup l -> (length (filter (fun x => x = u) l) <= 1)%nat.
Proof.
  induction 1 as [|x l Hx Hl IH]; [simpl; lia|].
  rewrite filter_cons. case_decide as Heq; [|done]. subst x. simpl.
  assert (filter (fun x => x = u) l = []) as ->; [|simpl; lia].
  clear Hl IH. induction l as [|y l IH]; [done|].
  apply not_elem_of_cons in Hx as [Hne Hx].
  rewrite filter_cons. case_decide; [congruence|auto].
Qed.

Lemma filter_eq_replicate (u v : string) (n : nat) :
  (length (filter (fun x => x = u) (replicate n v)) <= if decide (v = u) then n else 0)%nat.
Proof.
  induction n as [|n IH]; simpl; [by case_decide|].
  rewrite filter_cons. case_decide; simpl; lia.
Qed.

(** X12. In every state of a run no page other than the start page has
    been fetched more than once, the start page has been fetched at most
    twice, and the number of fetches is at most one more than the number
    of URLs of the site. *)
Theorem crawl_fetch_count (host : string) (acts : list action) (s : System) :
  exec acts (init seed host capacity) = Some s ->
  (∀ u, (length (filter (fun x => x = u) (sub_url <$> submitted (trace s)))
         <= if decide (seed = u) then 2 else 1)%nat) ∧
  (length (submitted (trace s)) <= 1 + length U)%nat.
Proof.
  intros Hexec. pose proof (run_inv host acts s Hexec) as Hinv. split.
  - intros u.
    pose proof (inv_tasks _ _ _ _ Hinv) as Htasks.
    pose proof (inv_dedup _ _ _ _ Hinv) as Hdedup.
    pose proof (filter_eq_NoDup u _ (inv_visits_NoDup _ _ _ _ Hinv)) as Hv.
    pose proof (filter_eq_replicate u seed (started (ctl s))) as Hr.
    assert (∀ l1 l2 : list string, l1 ≡ₚ l2 ->
              length (filter (fun x => x = u) l1) = length (filter (fun x => x = u) l2))
      as Hperm by (by intros l1 l2 ->).
    apply Hperm in Htasks, Hdedup. clear Hperm.
    rewrite !filter_app, !length_app in Htasks.
    rewrite !filter_app, !length_app in Hdedup.
    assert (started (ctl s) <= 1)%nat by (destruct (ctl s); simpl; lia).
    case_decide; lia.
  - destruct (inv_bound U seed capacity s Hinv) as [_ Hb].
    pose proof (inv_tasks _ _ _ _ Hinv) as Ht. apply Permutation_length in Ht.
    rewrite !length_app, !length_fmap in Ht. lia.
Qed.

Lemma gave_up_step a s s' :
  (wf_interrupt (wf (world s)) = true <-> given_up (trace s) ≠ []) ->
  step a s = Some s' ->
  (wf_interrupt (wf (world s')) = true <-> given_up (trace s') ≠ []).
Proof.
  intros HG. revert a s'.
  apply (step_elim fetch concurrency
           (fun _ s' => wf_interrupt (wf (world s')) = true <-> given_up (trace s') ≠ []));
    simpl; try solve [intros; trace_snoc2; auto].
  - intros i rec w' Hi [Hmu Hw]%processLink_eq.
    rewrite addLinkData_eq in Hw by done. injection Hw as <-. simpl.
    trace_snoc. exact HG.
  - intros x l _ _. trace_snoc. split; [|done].
    intros _ Hnil. by apply app_eq_nil in Hnil as [_ ?].
Qed.

(** X13. The interrupt flag, on which the note about partial results
    depends, is set exactly when some select of [run] has taken the
    cancellation instead of sending; and a link on which [run] has
    given up in this way, unless it is the start URL, stays in
    [visited] without ever being sent into [tasks] or fetched. *)
Theorem run_interrupt_partial (host : string) (acts : list action) (s : System) :
  exec acts (init seed host capacity) = Some s ->
  (wf_interrupt (wf (world s)) = true <-> given_up (trace s) ≠ []) ∧
  (∀ x, x ∈ given_up (trace s) -> x ≠ seed ->
     visited s !! x = Some true ∧ (x ∉ enqueued (trace s)) ∧
     (x ∉ (sub_url <$> submitted (trace s)))).
Proof.
  intros Hexec. pose proof (run_inv host acts s Hexec) as Hinv.
  split.
  - revert Hexec.
    apply (run_invariant
             (fun s => wf_interrupt (wf (world s)) = true <-> given_up (trace s) ≠ []) host).
    + done.
    + intros a s1 s2 _. apply gave_up_step.
  - intros x Hx Hne.
    pose proof (inv_tasks _ _ _ _ Hinv) as Htasks.
    pose proof (inv_dedup _ _ _ _ Hinv) as Hdedup.
    pose proof (filter_eq_NoDup x _ (inv_visits_NoDup _ _ _ _ Hinv)) as Hv.
    pose proof (filter_eq_replicate x seed (started (ctl s))) as Hr.
    rewrite decide_False in Hr by done.
    assert (∀ l1 l2 : list string, l1 ≡ₚ l2 ->
              length (filter (fun y => y = x) l1) = length (filter (fun y => y = x) l2))
      as Hperm by (by intros l1 l2 ->).
    assert (∀ l : list string, x ∈ l -> (1 <= length (filter (fun y => y = x) l))%nat)
      as Hcount.
    { intros l Hl. assert (x ∈ filter (fun y => y = x) l) as Hin
        by (by apply list_elem_of_filter).
      destruct (filter (fun y => y = x) l); [by apply elem_of_nil in Hin|simpl; lia]. }
    apply Hperm in Htasks, Hdedup. clear Hperm.
    rewrite !filter_app, !length_app in Htasks.
    rewrite !filter_app, !length_app in Hdedup.
    pose proof (Hcount _ Hx) as Hgx.
    assert (x ∈ visits (trace s)) as Hvis.
    { assert (x ∈ replicate (started (ctl s)) seed ++ visits (trace s)) as Hin.
      { rewrite <- (inv_dedup _ _ _ _ Hinv). rewrite !elem_of_app. auto. }
      apply elem_of_app in Hin as [[? _]%elem_of_replicate|Hin]; done. }
    split_and!.
    + by apply (inv_visited _ _ _ _ Hinv).
    + intros Hin%Hcount. lia.
    + intros Hin%Hcount. lia.
Qed.
End CrawlGraph.

(** ** [newWordFinder]: the target host *)

Lemma substring_0_length (s : string) : String.substring 0 (String.length s) s = s.
Proof. induction s as [|c s IH]; simpl; [done|by rewrite IH]. Qed.

Lemma substring_0_ge (n : nat) (s : string) :
  (String.length s <= n)%nat -> String.substring 0 n s = s.
Proof.
  revert n. induction s as [|c s IH]; intros [|n] Hn; simpl in *; try done; try lia.
  rewrite IH; [done|lia].
Qed.

Lemma length_substring_0 (n : nat) (s : string) :
  String.length (String.substring 0 n s) = Nat.min n (String.length s).
Proof.
  revert n. induction s as [|c s IH]; intros [|n]; simpl; try done.
  by rewrite IH.
Qed.

Lemma string_length_app (a b : string) :
  String.length (a +:+ b) = (String.length a + String.length b)%nat.
Proof. induction a as [|c a IH]; simpl; [done|by rewrite IH]. Qed.

(** X14. The target host of a new finder is the host name of the start
    URL without one leading [www.]: a host name that starts with
    [www.] loses exactly these four characters (so that [www.www.x]
    gives [www.x]), and any other host name is kept as it is. *)
Theorem newWordFinder_target (startURL : string) (capacity : nat) :
  (∀ rest, wf_target (newWordFinder startURL ("www." +:+ rest) capacity) = rest) ∧
  (∀ hostname, String.prefix "www." hostname = false ->
     wf_target (newWordFinder startURL hostname capacity) = hostname) ∧
  (∀ hostname,
     let target := wf_target (newWordFinder startURL hostname capacity) in
     (String.prefix "www." hostname = true ∧ hostname = "www." +:+ target) ∨
     (String.prefix "www." hostname = false ∧ hostname = target)).
Proof.
  assert (∀ rest, strip_www ("www." +:+ rest) = rest) as Hstrip.
  { intros rest. unfold strip_www. simpl. change ("" +:+ rest) with rest.
    assert (String.prefix "" rest = true) as -> by (by destruct rest).
    rewrite Nat.sub_0_r. apply substring_0_length. }
  split_and!.
  - intros rest. simpl. apply Hstrip.
  - intros hostname Hno. simpl. unfold strip_www. by rewrite Hno.
  - intros hostname. simpl.
    destruct (String.prefix "www." hostname) eqn:Hp.
    + left. split; [done|].
      apply prefix_correct in Hp. simpl in Hp.
      destruct hostname as [|a [|b [|c [|d rest]]]]; simpl in Hp; try done.
      injection Hp as -> -> -> -> _.
      by rewrite (Hstrip rest : strip_www (String _ (String _ (String _ (String _ rest)))) = _).
    + right. split; [done|]. unfold strip_www. by rewrite Hp.
Qed.

(** ** The status line *)

Lemma land_device_bits (mode : Z) :
  Z.land mode (Z.lor ModeDevice ModeCharDevice) = Z.lor ModeDevice ModeCharDevice <->
  Z.testbit mode 26 = true ∧ Z.testbit mode 21 = true.
Proof.
  unfold ModeDevice, ModeCharDevice. split.
  - intros H. split.
    + apply (f_equal (fun z => Z.testbit z 26)) in H.
      rewrite Z.land_spec in H. by apply andb_true_iff in H as [? _].
    + apply (f_equal (fun z => Z.testbit z 21)) in H.
      rewrite Z.land_spec in H. by apply andb_true_iff in H as [? _].
  - intros [H26 H21]. apply Z.bits_inj'. intros n Hn.
    rewrite Z.land_spec, Z.lor_spec, !Z.pow2_bits_eqb by lia.
    destruct (26 =? n) eqn:E26; [apply Z.eqb_eq in E26 as <-; by rewrite H26|].
    destruct (21 =? n) eqn:E21; [apply Z.eqb_eq in E21 as <-; by rewrite H21|].
    apply andb_false_r.
Qed.

Lemma newFormatter_eq (stat : option Z) :
  newFormatter stat =
    Some (mk_formatter
            (match stat with
             | Some mode =>
                 bool_decide (Z.land mode (Z.lor ModeDevice ModeCharDevice) =
                              Z.lor ModeDevice ModeCharDevice)
             | None => false
             end) status_format).
Proof. reflexivity. Qed.

(** X15. [newFormatter] always builds the format [%s%-75.75s%s\r], and
    it takes stdout for a terminal exactly when [Stat] succeeds and the
    mode has both the device bit and the character device bit set,
    whatever the other bits are. *)
Theorem newFormatter_isTTY (stat : option Z) :
  ∃ f, newFormatter stat = Some f ∧
    fmtStr f = status_format ∧
    (isTTY f = true <->
     ∃ mode, stat = Some mode ∧ Z.testbit mode 26 = true ∧ Z.testbit mode 21 = true).
Proof.
  rewrite newFormatter_eq. eexists. split; [reflexivity|]. simpl. split; [done|].
  destruct stat as [mode|].
  - rewrite bool_decide_eq_true, land_device_bits. split.
    + intros H. by exists mode.
    + by intros (? & [= <-] & H).
  - split; [done|]. by intros (? & ? & _).
Qed.

Lemma Sprintf_status (a b c : string) :
  Sprintf status_format [AStr a; AStr b; AStr c] =
    (shown ← fmtS true (Some 75%N) (Some 75%N) b; Some (a +:+ shown +:+ c +:+ CR)).
Proof.
  unfold Sprintf, status_format. lazy -[fmtS].
  change (fmtS false None None a) with (Some a).
  change (fmtS false None None c) with (Some c).
  destruct (fmtS true _ _ b); reflexivity.
Qed.

Lemma Sprintf_processing (text : string) :
  Sprintf ("Processing link: '%s'" +:+ newline) [AStr text] =
    Some ("Processing link: '" +:+ text +:+ "'" +:+ newline).
Proof. reflexivity. Qed.

Lemma is_ascii_text_app (a b : string) :
  is_ascii_text (a +:+ b) = is_ascii_text a && is_ascii_text b.
Proof.
  unfold is_ascii_text. induction a as [|c a IH]; simpl; [done|].
  rewrite IH. by rewrite andb_assoc.
Qed.

Lemma is_ascii_text_substring (n : nat) (s : string) :
  is_ascii_text s = true -> is_ascii_text (String.substring 0 n s) = true.
Proof.
  unfold is_ascii_text. revert n.
  induction s as [|c s IH]; intros [|n]; simpl; try done.
  intros [Hc Hs]%andb_true_iff. rewrite Hc. simpl. by apply IH.
Qed.

Lemma length_spaces (n : nat) : String.length (spaces n) = n.
Proof. unfold spaces. induction n as [|n IH]; simpl; [done|by rewrite IH]. Qed.

(** X16. The line that [showStatusLine] writes with a formatter from
    [newFormatter].  Off a terminal it is [Processing link: '...'] with
    the whole text and a newline.  On a terminal, for ASCII text, the
    field between the two escape sequences is always [outputLength]
    characters wide and the line ends in a carriage return: a text of
    at most 75 characters is shown in full and padded with spaces, a
    longer one is cut to its first 72 characters followed by three
    dots; the precision of the format never cuts anything. *)
Theorem showStatusLine_line (stat : option Z) (f : formatter)
    (text : string) (interrupt : bool) :
  newFormatter stat = Some f ->
  (isTTY f = false ->
   showStatusLine f text interrupt =
     Some ("Processing link: '" +:+ text +:+ "'" +:+ newline)) ∧
  (isTTY f = true -> is_ascii_text text = true ->
   ∃ shown,
     showStatusLine f text interrupt =
       Some ((if interrupt then redBold else bold) +:+ shown +:+ graphicsOff +:+ CR) ∧
     String.length shown = outputLength ∧
     shown = if decide (String.length text <= outputLength)%nat
             then text +:+ spaces (outputLength - String.length text)
             else String.substring 0 72 text +:+ "...").
Proof.
  rewrite newFormatter_eq. intros [= <-]. simpl.
  set (tty := match stat with Some _ => _ | None => _ end). clearbody tty.
  unfold showStatusLine. simpl. split.
  - intros ->. apply Sprintf_processing.
  - intros -> Hascii. rewrite Sprintf_status. unfold outputLength.
    assert (∀ t, is_ascii_text t = true -> (String.length t <= 75)%nat ->
              fmtS true (Some 75%N) (Some 75%N) t =
                Some (t +:+ spaces (75 - String.length t))) as Hfmt.
    { intros t Ht Hlen. unfold fmtS. rewrite Ht.
      change (N.to_nat 75) with 75%nat. by rewrite substring_0_ge. }
    case_decide as Hlong.
    + rewrite decide_False by lia.
      assert (String.length (String.substring 0 72 text +:+ "...") = 75%nat) as Hlen.
      { rewrite string_length_app, length_substring_0, Nat.min_l by lia. reflexivity. }
      rewrite Hfmt.
      * eexists. split; [reflexivity|]. rewrite Hlen, Nat.sub_diag.
        split; [by rewrite string_length_app, Hlen|].
        unfold spaces. simpl. clear. generalize (String.substring 0 72 text +:+ "...").
        intros t. induction t as [|c t IH]; [reflexivity|].
        change (String c t +:+ "") with (String c (t +:+ "")). by f_equal.
      * rewrite is_ascii_text_app, is_ascii_text_substring by done. reflexivity.
      * lia.
    + rewrite decide_True by lia. rewrite Hfmt by (done || lia).
      eexists. split; [reflexivity|]. split; [|done].
      rewrite string_length_app, length_spaces. lia.
Qed.

Lemma showStatusLine_line_witness :
  ∃ shown,
    showStatusLine (mk_formatter true status_format) sample_long_link true =
      Some (redBold +:+ shown +:+ graphicsOff +:+ CR) ∧
    String.length shown = outputLength.
Proof.
  destruct (showStatusLine_line (Some sample_tty_mode) (mk_formatter true status_format)
              sample_long_link true eq_refl) as [_ Htty].
  destruct (Htty eq_refl eq_refl) as (shown & Hline & Hlen & _).
  exists shown. split; [exact Hline|exact Hlen].
Defined.

(** ** The theorems on runs, applied to the sample site *)

Ltac sample_run sched s Hexec :=
  destruct (exec sample_fetch 2 sched (init sample_seed "site.test" 2))
    as [s|] eqn:Hexec; [|vm_compute in Hexec; discriminate].

Ltac sample_site_facts Hclosed Hseed Hfits :=
  assert (graph_closed sample_fetch sample_site = true) as Hclosed by reflexivity;
  assert (sample_seed ∈ sample_site) as Hseed by (left);
  assert (Z.of_nat (length sample_site) + 3 <= max_int) as Hfits
    by (unfold max_int; simpl; lia).

Lemma run_keeps_witness :
  ∃ s, exec sample_fetch 2 sample_schedule (init sample_seed "site.test" 2) = Some s ∧
    keeps (init sample_seed "site.test" 2) s.
Proof.
  sample_run sample_schedule s Hexec.
  exists s. split; [reflexivity|].
  exact (run_keeps sample_fetch 2 sample_schedule _ s Hexec).
Defined.

Lemma run_within_bounds_witness :
  ∃ s, exec sample_fetch 2 sample_schedule (init sample_seed "site.test" 2) = Some s ∧
    (length (busy s) <= 2)%nat ∧ (length (buf (tasks s)) <= 2)%nat ∧
    (length (buf (wf_filter (wf (world s)))) <= 2)%nat.
Proof.
  sample_run sample_schedule s Hexec.
  exists s. split; [reflexivity|].
  exact (run_within_bounds sample_fetch 2 sample_seed "site.test" 2 sample_schedule s Hexec).
Defined.

Lemma run_stats_count_witness :
  graph_closed sample_fetch sample_site = true ∧
  sample_seed ∈ sample_site ∧
  Z.of_nat (length sample_site) + 3 <= max_int ∧
  ∃ s, exec sample_fetch 2 sample_full_schedule (init sample_seed "site.test" 2) = Some s ∧
    chanFree (getRunStats (wf (world s))) + chanBlocked (getRunStats (wf (world s))) =
      Z.of_nat (length (submitted (trace s))).
Proof.
  sample_site_facts Hclosed Hseed Hfits. split_and!; try done.
  sample_run sample_full_schedule s Hexec.
  exists s. split; [reflexivity|].
  destruct (run_stats_count sample_fetch 2 sample_site sample_seed 2
              Hclosed Hseed Hfits "site.test" sample_full_schedule s Hexec)
    as (_ & _ & Hsum).
  exact Hsum.
Defined.

Lemma crawl_sound_witness :
  ∃ s, exec sample_fetch 2 sample_schedule (init sample_seed "site.test" 2) = Some s ∧
    ∀ u, u ∈ enqueued (trace s) -> link_reachable (any_links sample_fetch) sample_seed u.
Proof.
  sample_run sample_schedule s Hexec.
  exists s. split; [reflexivity|].
  destruct (crawl_sound sample_fetch 2 sample_seed "site.test" 2 sample_schedule s Hexec)
    as [Henq _].
  exact Henq.
Defined.

Lemma run_exit_quiescent_witness :
  graph_closed sample_fetch sample_site = true ∧
  sample_seed ∈ sample_site ∧
  Z.of_nat (length sample_site) + 3 <= max_int ∧
  ∃ s, exec sample_fetch 2 sample_full_schedule (init sample_seed "site.test" 2) = Some s ∧
    ctl s = CDone ∧
    busy s = [] ∧
    ∀ a s', step sample_fetch 2 a s = Some s' -> a = ACancel.
Proof.
  sample_site_facts Hclosed Hseed Hfits. split_and!; try done.
  sample_run sample_full_schedule s Hexec.
  assert (ctl s = CDone) as Hdone.
  { vm_compute in Hexec. injection Hexec as <-. reflexivity. }
  exists s. split; [reflexivity|]. split; [exact Hdone|].
  destruct (run_exit_quiescent sample_fetch 2 sample_site sample_seed 2
              Hclosed Hseed Hfits "site.test" sample_full_schedule s Hexec Hdone)
    as ((_ & Hbusy & _) & _ & Honly & _).
  split; [exact Hbusy|exact Honly].
Defined.

Lemma crawl_complete_witness :
  graph_closed sample_fetch sample_site = true ∧
  sample_seed ∈ sample_site ∧
  Z.of_nat (length sample_site) + 3 <= max_int ∧
  ∃ s, exec sample_fetch 2 sample_full_schedule (init sample_seed "site.test" 2) = Some s ∧
    ctl s = CDone ∧ cancelled s = false ∧
    ∀ u, u ∈ (sub_url <$> submitted (trace s)) <->
         link_reachable (live_links sample_fetch) sample_seed u.
Proof.
  sample_site_facts Hclosed Hseed Hfits. split_and!; try done.
  sample_run sample_full_schedule s Hexec.
  assert (ctl s = CDone ∧ cancelled s = false) as [Hdone Hc].
  { vm_compute in Hexec. injection Hexec as <-. split; reflexivity. }
  exists s. split; [reflexivity|]. split; [exact Hdone|]. split; [exact Hc|].
  exact (crawl_complete sample_fetch 2 sample_site sample_seed 2
           Hclosed Hseed Hfits "site.test" sample_full_schedule s Hexec Hdone Hc).
Defined.

Lemma crawl_result_witness :
  graph_closed sample_fetch sample_site = true ∧
  sample_seed ∈ sample_site ∧
  Z.of_nat (length sample_site) + 3 <= max_int ∧
  ∃ s linked,
    exec sample_fetch 2 sample_full_schedule (init sample_seed "site.test" 2) = Some s ∧
    ctl s = CDone ∧ cancelled s = false ∧
    submitted (trace s) ≡ₚ live_page sample_fetch <$> (sample_seed :: linked) ∧
    ∀ k, index (wf_words (wf (world s))) k =
         wrap64 (total_count k ((fun u => pr_words (sample_fetch false u)) <$>
                                (sample_seed :: linked))).
Proof.
  sample_site_facts Hclosed Hseed Hfits. split_and!; try done.
  sample_run sample_full_schedule s Hexec.
  assert (ctl s = CDone ∧ cancelled s = false) as [Hdone Hc].
  { vm_compute in Hexec. injection Hexec as <-. split; reflexivity. }
  destruct (crawl_result sample_fetch 2 sample_site sample_seed 2
              Hclosed Hseed Hfits "site.test" sample_full_schedule s Hexec Hdone Hc)
    as (linked & _ & _ & Hsub & Hwords).
  exists s, linked. split; [reflexivity|].
  split; [exact Hdone|]. split; [exact Hc|]. split; [exact Hsub|exact Hwords].
Defined.

Lemma crawl_fetch_count_witness :
  graph_closed sample_fetch sample_site = true ∧
  sample_seed ∈ sample_site ∧
  Z.of_nat (length sample_site) + 3 <= max_int ∧
  ∃ s, exec sample_fetch 2 sample_full_schedule (init sample_seed "site.test" 2) = Some s ∧
    (length (submitted (trace s)) <= 1 + length sample_site)%nat.
Proof.
  sample_site_facts Hclosed Hseed Hfits. split_and!; try done.
  sample_run sample_full_schedule s Hexec.
  exists s. split; [reflexivity|].
  destruct (crawl_fetch_count sample_fetch 2 sample_site sample_seed 2
              Hclosed Hseed Hfits "site.test" sample_full_schedule s Hexec)
    as [_ Hlen].
  exact Hlen.
Defined.

Lemma run_interrupt_partial_witness :
  graph_closed sample_fetch sample_site = true ∧
  sample_seed ∈ sample_site ∧
  Z.of_nat (length sample_site) + 3 <= max_int ∧
  ∃ s, exec sample_fetch 2 sample_cancelled_schedule (init sample_seed "site.test" 2) = Some s ∧
    (wf_interrupt (wf (world s)) = true <-> given_up (trace s) ≠ []) ∧
    sample_page ∈ given_up (trace s) ∧
    sample_page ∉ enqueued (trace s).
Proof.
  sample_site_facts Hclosed Hseed Hfits. split_and!; try done.
  sample_run sample_cancelled_schedule s Hexec.
  assert (sample_page ∈ given_up (trace s)) as Hgiven.
  { vm_compute in Hexec. injection Hexec as <-. left. }
  assert (sample_page ≠ sample_seed) as Hne by discriminate.
  destruct (run_interrupt_partial sample_fetch 2 sample_site sample_seed 2
              Hclosed Hseed Hfits "site.test" sample_cancelled_schedule s Hexec)
    as [Hiff Hpartial].
  destruct (Hpartial sample_page Hgiven Hne) as (_ & Hnot & _).
  exists s. split; [reflexivity|]. split; [exact Hiff|]. split; [exact Hgiven|exact Hnot].
Defined.

Lemma crawl_errors_witness :
  graph_closed sample_fetch sample_site = true ∧
  sample_seed ∈ sample_site ∧
  Z.of_nat (length sample_site) + 3 <= max_int ∧
  ∃ s, exec sample_fetch 2 sample_full_schedule (init sample_seed "site.test" 2) = Some s ∧
    ctl s = CDone ∧ cancelled s = false ∧
    (is_nil (getErrors (wf (world s))) = true <->
     ∀ u, link_reachable (live_links sample_fetch) sample_seed u ->
          pr_err (sample_fetch false u) = None).
Proof.
  sample_site_facts Hclosed Hseed Hfits. split_and!; try done.
  sample_run sample_full_schedule s Hexec.
  assert (ctl s = CDone ∧ cancelled s = false) as [Hdone Hc].
  { vm_compute in Hexec. injection Hexec as <-. split; reflexivity. }
  destruct (crawl_errors sample_fetch 2 sample_site sample_seed 2
              Hclosed Hseed Hfits "site.test" sample_full_schedule s Hexec Hdone Hc)
    as [Hnil _].
  exists s. split; [reflexivity|]. split; [exact Hdone|]. split; [exact Hc|exact Hnil].
Defined.
